(** * gaussian-viewer: the signalling server of [main.py]

    A shallow embedding of [main.py]: the session registry ([sessions]),
    [parse_frame], [create_session], [FrameProducer.recv], the HTTP handlers
    [add_ice_candidate] and [create_offer] and the two callbacks that
    [create_offer] installs ([on_connectionstatechange], [on_message]).

    Python objects that are shared by reference (renderers, peer
    connections, tracks) live in heaps addressed by handles; exceptions are
    values of [exn] carried by [result]; what the code writes to the log at
    level WARN or above is a list of [record]s. *)

From Stdlib Require Import String Ascii List ZArith Lia Bool.
From stdpp Require Import base option list strings gmap.

Local Open Scope string_scope.
Local Open Scope list_scope.

(** ** Exceptions, results and log records *)

Inductive exn : Type :=
  | KeyError (key : string)
  | TypeError
  | ValueError
  | UnboundLocalError (name : string)
  | AttributeError (attr : string)
  | Exception (msg : string)
  | HTTPException (status_code : nat)
  | LibraryError (code : nat).

Inductive result (A : Type) : Type :=
  | Ok (a : A)
  | Raise (e : exn).
Arguments Ok {A} a.
Arguments Raise {A} e.

(** [logging.basicConfig(level=logging.WARN)]: [logging.info] and
    [logging.debug] write nothing, [logging.error] writes a record;
    [traceback.print_exc()] writes the traceback of the exception being
    handled. *)
Inductive record : Type :=
  | log_error (e : exn)
  | log_failed_render (failed_attempts : nat)
  | log_failed_ice (candidate : string)
  | print_exc (e : exn).

Definition bytes := list Byte.byte.

(** JSON values as [json.loads] returns them; a number keeps its lexeme. *)
#[warnings="-register-all"]
Inductive Json : Type :=
  | JNull
  | JBool (b : bool)
  | JNum (lexeme : string)
  | JStr (s : string)
  | JArr (items : list Json)
  | JObj (members : list (string * Json)).

(** The request body of [POST /ice-candidate] and the [RTCIceCandidate]
    the handler builds from it. *)
Record IceCandidate : Type := mkIceCandidate {
  candidate : string;
  sdpMLineIndex : Z;
  sdpMid : string;
  usernameFragment : string
}.

Record RTCIceCandidate : Type := mkRTCIceCandidate {
  ice_component : N;
  ice_foundation : string;
  ice_ip : string;
  ice_port : N;
  ice_priority : N;
  ice_protocol : string;
  ice_type : string;
  ice_sdpMid : string;
  ice_sdpMLineIndex : Z
}.

(** The request body of [POST /offer]. *)
Record Offer : Type := mkOffer {
  sdp : string;
  type : string
}.

(** ** The collaborators

    Everything [main.py] imports and calls but does not define: the
    [Renderer] of the [src] package, PyAV's codec context, aiortc's peer
    connection and track clock, scipy's [Rotation], [json.loads] and
    [get_ice_servers]. Each is an abstract state with the operations the
    code calls on it; an operation that can raise returns a [result].
    Constructors are taken not to raise. *)
Class Collaborators : Type := {
  Renderer : Type;
  Codec : Type;
  Packet : Type;
  Image : Type;
  TimeBase : Type;
  Clock : Type;
  PeerConnection : Type;
  Matrix : Type;
  IceServers : Type;
  (* Renderer(gaussian_model, Camera().load(cam_info), logging=False) *)
  Renderer_new : Renderer;
  render : Renderer -> Renderer * result (option bytes);
  update : Json -> Matrix -> Renderer -> Renderer * result unit;
  (* av.CodecContext.create("h264", "r"), sized from the renderer's camera *)
  CodecContext_create : Renderer -> Codec;
  codec_parse : Codec -> bytes -> Codec * result (list Packet);
  codec_decode : Codec -> Packet
                 -> Codec * result (list (Image * option Z * option TimeBase));
  (* VideoStreamTrack.__init__ and VideoStreamTrack.next_timestamp *)
  Clock_new : Clock;
  next_timestamp : Clock -> Clock * result (Z * TimeBase);
  (* what closing a peer connection does to the track it sends *)
  track_on_close : Clock -> Clock;
  (* RTCPeerConnection *)
  RTCPeerConnection_new : PeerConnection;
  get_ice_servers : IceServers;
  set_configuration : IceServers -> PeerConnection -> PeerConnection;
  addTrack : nat -> PeerConnection -> PeerConnection;
  connectionState : PeerConnection -> string;
  pc_close : PeerConnection -> PeerConnection;
  setRemoteDescription : Offer -> PeerConnection -> PeerConnection * result unit;
  createAnswer : PeerConnection -> PeerConnection * result Offer;
  setLocalDescription : Offer -> PeerConnection -> PeerConnection * result unit;
  localDescription : PeerConnection -> Offer;
  addIceCandidate : RTCIceCandidate -> PeerConnection -> PeerConnection * result unit;
  (* Rotation.from_euler("xyz", rotation, degrees=True).as_matrix() *)
  from_euler_xyz_degrees : Json -> result Matrix;
  json_loads : string -> result Json;
  (* sys.get_int_max_str_digits(): the most digits int() converts, 4300
     unless configured, 0 for no limit (as in interpreters without it) *)
  max_str_digits : nat
}.

(** An [av.VideoFrame]: the decoded picture and the two attributes [recv]
    assigns. *)
Record VideoFrame `{Collaborators} : Type := mkVideoFrame {
  image : Image;
  pts : option Z;
  time_base : option TimeBase
}.

(** ** [parse_frame] *)

Section ParseFrame.
Context `{C : Collaborators}.

Definition as_frame (f : Image * option Z * option TimeBase) : VideoFrame :=
  let '(i, p, t) := f in mkVideoFrame _ i p t.

(** The body of the [try] of [parse_frame] after [container.parse]: the two
    nested [for] loops. [Ok (Some frame)] is [return frame]; [Ok None] is
    the loops running to their end. *)
Fixpoint decode_packets (container : Codec) (packets : list Packet)
  : Codec * result (option VideoFrame) :=
  match packets with
  | [] => (container, Ok None)
  | packet :: packets' =>
      let '(container', frames) := codec_decode container packet in
      match frames with
      | Raise e => (container', Raise e)
      | Ok [] => decode_packets container' packets'
      | Ok (frame :: _) => (container', Ok (Some (as_frame frame)))
      end
  end.

Definition parse_frame_try (container : Codec) (data : bytes)
  : Codec * result (option VideoFrame) :=
  let '(container', packets) := codec_parse container data in
  match packets with
  | Raise e => (container', Raise e)
  | Ok packets => decode_packets container' packets
  end.

(** [parse_frame(container, data)]: the codec context after the call, the
    records written, and what the call returns or raises. *)
Definition parse_frame (container : Codec) (data : bytes)
  : Codec * list record * result (option VideoFrame) :=
  let '(container', r) := parse_frame_try container data in
  match r with
  | Ok (Some frame) => (container', [], Ok (Some frame))
  | Ok None => (container', [], Ok None)
  | Raise e => (container', [log_error e; print_exc e], Ok None)
  end.

(** [decodes_nothing c ps c']: decoding the packets [ps] one after the
    other from codec state [c] raises nothing, yields no frame, and leaves
    the codec in state [c']. *)
Inductive decodes_nothing : Codec -> list Packet -> Codec -> Prop :=
  | dn_nil c : decodes_nothing c [] c
  | dn_cons c p c1 ps c2 :
      codec_decode c p = (c1, Ok []) ->
      decodes_nothing c1 ps c2 ->
      decodes_nothing c (p :: ps) c2.

End ParseFrame.

(** ** [FrameProducer.recv]: the retry loop *)

(** A local variable of a Python function: not assigned yet, or bound. *)
Inductive local (A : Type) : Type :=
  | Unbound
  | Bound (v : A).
Arguments Unbound {A}.
Arguments Bound {A} v.

Inductive control : Type := Break | Continue.

Definition max_failed_attempts : nat := 10.

Section Recv.
Context `{C : Collaborators}.

(** What the [while True] loop of [recv] reads and writes: the session's
    renderer, the track's codec context, the locals [failed_attempts] and
    [frame], the records written, and the number of [render()] calls made so
    far. *)
Record LoopState : Type := mkLoopState {
  ls_renderer : Renderer;
  ls_container : Codec;
  failed_attempts : nat;
  frame : local (option VideoFrame);
  ls_output : list record;
  render_calls : nat
}.

Definition loop_start (r : Renderer) (c : Codec) : LoopState :=
  mkLoopState r c 0 Unbound [] 0.

(** The [except Exception as e] clause. *)
Definition except_clause (e : exn) (st : LoopState) : LoopState * control :=
  let failed := S (failed_attempts st) in
  let out := ls_output st ++ [log_error e] in
  if (max_failed_attempts <=? failed)%nat
  then (mkLoopState (ls_renderer st) (ls_container st) failed (frame st)
          (out ++ [log_failed_render failed]) (render_calls st), Break)
  else (mkLoopState (ls_renderer st) (ls_container st) failed (frame st)
          out (render_calls st), Continue).

(** One pass through the body of [while True]. *)
Definition recv_iteration (st : LoopState) : LoopState * control :=
  let '(r', data) := render (ls_renderer st) in
  let st1 := mkLoopState r' (ls_container st) (failed_attempts st) (frame st)
               (ls_output st) (S (render_calls st)) in
  match data with
  | Raise e => except_clause e st1
  | Ok None => (st1, Continue)
  | Ok (Some data) =>
      if (0 <? length data)%nat then
        let '(c', out, parsed) := parse_frame (ls_container st1) data in
        let st2 := mkLoopState r' c' (failed_attempts st1) (frame st1)
                     (ls_output st1 ++ out) (render_calls st1) in
        match parsed with
        | Raise e => except_clause e st2
        | Ok parsed =>
            let st3 := mkLoopState r' c' (failed_attempts st2) (Bound parsed)
                         (ls_output st2) (render_calls st2) in
            match parsed with
            | Some _ => (st3, Break)
            | None => except_clause (Exception "Error parsing frame") st3
            end
        end
      else (st1, Continue)
  end.

(** The loop, run for at most [fuel] passes: [Finished] at a [break],
    [Running] when the passes are used up and the loop is still going. *)
Inductive loop_run : Type :=
  | Finished (st : LoopState)
  | Running (st : LoopState).

Fixpoint recv_loop (fuel : nat) (st : LoopState) : loop_run :=
  match fuel with
  | 0 => Running st
  | S fuel' =>
      let '(st', ctl) := recv_iteration st in
      match ctl with
      | Break => Finished st'
      | Continue => recv_loop fuel' st'
      end
  end.

(** After the loop: [frame.pts = pts; frame.time_base = time_base;
    return frame]. *)
Definition stamp (frame : local (option VideoFrame)) (pts : Z) (time_base : TimeBase)
  : result VideoFrame :=
  match frame with
  | Unbound => Raise (UnboundLocalError "frame")
  | Bound None => Raise (AttributeError "pts")
  | Bound (Some f) => Ok (mkVideoFrame _ (image f) (Some pts) (Some time_base))
  end.

(** [frame] holds no frame: it is unbound or bound to [None]. *)
Definition no_frame (st : LoopState) : Prop :=
  frame st = Unbound \/ frame st = Bound None.

(** The renderer never answers "no data": each call raises or returns a
    non-empty buffer. *)
Definition never_empty : Prop :=
  forall r, match snd (render r) with
            | Ok None => False
            | Ok (Some data) => data <> []
            | Raise _ => True
            end.

End Recv.

(** ** The ICE candidate pattern of [add_ice_candidate]

    A candidate line is a [str] whose code points are below 256. The
    character classes are those of [re] on such a [str]: [\d] is the ten
    decimal digits, [\w] is every alphanumeric character and the
    underscore, [\s] is the white space of [str.isspace]. *)

Definition code (c : ascii) : nat := nat_of_ascii c.

Definition between (lo hi : nat) (c : ascii) : bool :=
  ((lo <=? code c) && (code c <=? hi))%nat.

Definition is_digit (c : ascii) : bool := between 48 57 c.

Definition is_ascii_letter (c : ascii) : bool := between 65 90 c || between 97 122 c.

(** Alphanumeric characters of Latin-1 above 127: the letters, the
    superscript digits and the vulgar fractions. *)
Definition is_latin1_alnum (c : ascii) : bool :=
  (code c =? 170)%nat || between 178 179 c || (code c =? 181)%nat
  || between 185 186 c || between 188 190 c
  || between 192 214 c || between 216 246 c || between 248 255 c.

Definition is_word (c : ascii) : bool :=
  is_digit c || is_ascii_letter c || (code c =? 95)%nat || is_latin1_alnum c.

Definition is_space (c : ascii) : bool :=
  between 9 13 c || between 28 32 c || (code c =? 133)%nat || (code c =? 160)%nat.

Definition is_nonspace (c : ascii) : bool := negb (is_space c).

(** The pattern is a sequence of literals and capture groups [(cls+)]. *)
Inductive item : Type :=
  | Lit (s : string)
  | Group (cls : ascii -> bool).

(** [r"candidate:(\d+) (\d+) (\w+) (\d+) (\S+) (\d+) typ (\w+)"] *)
Definition pattern : list item :=
  [Lit "candidate:"; Group is_digit; Lit " "; Group is_digit; Lit " ";
   Group is_word; Lit " "; Group is_digit; Lit " "; Group is_nonspace;
   Lit " "; Group is_digit; Lit " typ "; Group is_word].

Fixpoint strip_prefix (lit s : string) : option string :=
  match lit with
  | EmptyString => Some s
  | String c lit' =>
      match s with
      | String d s' => if Ascii.eqb c d then strip_prefix lit' s' else None
      | EmptyString => None
      end
  end.

Fixpoint run_length (cls : ascii -> bool) (s : string) : nat :=
  match s with
  | String c s' => if cls c then S (run_length cls s') else 0
  | EmptyString => 0
  end.

Fixpoint str_take (n : nat) (s : string) : string :=
  match n, s with
  | S n', String c s' => String c (str_take n' s')
  | _, _ => EmptyString
  end.

Fixpoint str_drop (n : nat) (s : string) : string :=
  match n, s with
  | S n', String _ s' => str_drop n' s'
  | _, _ => s
  end.

(** A greedy group: try the longest run first and give back one character
    at a time while the rest of the pattern fails; a group holds at least
    one character. *)
Fixpoint backtrack (k : nat) (s : string) (rest : string -> option (list string))
  : option (list string) :=
  match k with
  | 0 => None
  | S k' =>
      match rest (str_drop k s) with
      | Some groups => Some (str_take k s :: groups)
      | None => backtrack k' s rest
      end
  end.

(** [re.match(items, s)]: anchored at the start of [s] only; the result is
    [match.groups()]. *)
Fixpoint re_match (items : list item) (s : string) : option (list string) :=
  match items with
  | [] => Some []
  | Lit lit :: items' =>
      match strip_prefix lit s with
      | Some s' => re_match items' s'
      | None => None
      end
  | Group cls :: items' => backtrack (run_length cls s) s (re_match items')
  end.

Definition digit_value (c : ascii) : N := N.of_nat (code c - 48).

Fixpoint int_digits (acc : N) (s : string) : result N :=
  match s with
  | EmptyString => Ok acc
  | String c s' =>
      if is_digit c then int_digits (10 * acc + digit_value c)%N s'
      else Raise ValueError
  end.

(** [int(s)] for a string of decimal digits, in base ten; a string with
    more digits than the interpreter's limit is refused. *)
Definition int `{C : Collaborators} (s : string) : result N :=
  match s with
  | EmptyString => Raise ValueError
  | _ =>
      if ((0 <? max_str_digits) && (max_str_digits <? String.length s))%nat
      then Raise ValueError
      else int_digits 0%N s
  end.

(** A string short enough for [int]: there is no limit, or it has no more
    characters than the limit. *)
Definition convertible `{C : Collaborators} (s : string) : Prop :=
  max_str_digits = 0 \/ String.length s <= max_str_digits.

(** Lines 142-156 of [add_ice_candidate]: match the candidate line, unpack
    the seven groups and build the [RTCIceCandidate]. [Ok None] is the
    [else] branch (no match). *)
Definition parse_candidate `{C : Collaborators} (c : IceCandidate)
  : result (option RTCIceCandidate) :=
  match re_match pattern (candidate c) with
  | Some [foundation; component; protocol; priority; ip; port; typ] =>
      match int component with
      | Raise e => Raise e
      | Ok component =>
          match int port with
          | Raise e => Raise e
          | Ok port =>
              match int priority with
              | Raise e => Raise e
              | Ok priority =>
                  Ok (Some (mkRTCIceCandidate component foundation ip port priority
                              protocol typ (sdpMid c) (sdpMLineIndex c)))
              end
          end
      end
  | Some _ => Raise ValueError
  | None => Ok None
  end.

(** What it means for [s] to match [items] with the given groups, leaving
    [rest] unread. *)
Fixpoint str_all (cls : ascii -> bool) (s : string) : bool :=
  match s with
  | EmptyString => true
  | String c s' => cls c && str_all cls s'
  end.

Definition token (cls : ascii -> bool) (s : string) : bool :=
  match s with
  | EmptyString => false
  | _ => str_all cls s
  end.

Inductive matches : list item -> string -> list string -> string -> Prop :=
  | matches_nil s : matches [] s [] s
  | matches_lit lit items s groups rest :
      matches items s groups rest ->
      matches (Lit lit :: items) (lit ++ s)%string groups rest
  | matches_group cls items g s groups rest :
      token cls g = true ->
      matches items s groups rest ->
      matches (Group cls :: items) (g ++ s)%string (g :: groups) rest.

(** The line the grammar of the specification describes, built from its
    seven fields. *)
Definition candidate_line (foundation component protocol priority ip port typ : string)
  : string :=
  ("candidate:" ++ foundation ++ " " ++ component ++ " " ++ protocol ++ " "
   ++ priority ++ " " ++ ip ++ " " ++ port ++ " typ " ++ typ)%string.

Definition is_alnum (c : ascii) : bool := is_digit c || is_ascii_letter c.

(** Following the specification's words: [candidate:<foundation> <component>
    <protocol> <priority> <ip> <port> typ <type>], foundation, component,
    priority and port decimal integers, protocol and type alphanumeric
    tokens, ip any token without white space. *)
Definition grammar_line (s : string) : Prop :=
  exists foundation component protocol priority ip port typ,
    token is_digit foundation = true /\ token is_digit component = true /\
    token is_alnum protocol = true /\ token is_digit priority = true /\
    token is_nonspace ip = true /\ token is_digit port = true /\
    token is_alnum typ = true /\
    s = candidate_line foundation component protocol priority ip port typ.

(** The same with the classes of the pattern, and anything after the
    type. *)
Definition pattern_prefix (s : string) : Prop :=
  exists foundation component protocol priority ip port typ rest,
    token is_digit foundation = true /\ token is_digit component = true /\
    token is_word protocol = true /\ token is_digit priority = true /\
    token is_nonspace ip = true /\ token is_digit port = true /\
    token is_word typ = true /\
    s = (candidate_line foundation component protocol priority ip port typ ++ rest)%string.

(** The first character of [s] is not in [cls] (or [s] is empty). *)
Definition stops (cls : ascii -> bool) (s : string) : bool :=
  match s with
  | EmptyString => true
  | String c _ => negb (cls c)
  end.

(** ** Sessions, the registry and the handlers *)

(** A [Session]: the renderer and the peer connection are references to
    shared objects, held here as handles into the heaps of [World]. A
    [Session] is never assigned to after [__init__]. *)
Record Session : Type := mkSession {
  session_id : string;
  renderer : nat;
  pc : nat
}.

(** [x[key]] on a value returned by [json.loads], for a [str] key. *)
Fixpoint members_get (key : string) (members : list (string * Json)) : result Json :=
  match members with
  | [] => Raise (KeyError key)
  | (k, v) :: members' => if String.eqb k key then Ok v else members_get key members'
  end.

Definition getitem (x : Json) (key : string) : result Json :=
  match x with
  | JObj members => members_get key members
  | _ => Raise TypeError
  end.

Definition is_camera_update (x : Json) : bool :=
  match x with
  | JStr s => String.eqb s "camera_update"
  | _ => false
  end.

(** What FastAPI answers for a handler's outcome: the handler's value, the
    status of an [HTTPException], or, for any other exception, the
    exception itself leaving the application. *)
Inductive response (A : Type) : Type :=
  | Success (body : A)
  | ErrorStatus (status_code : nat)
  | Uncontained (e : exn).
Arguments Success {A} body.
Arguments ErrorStatus {A} status_code.
Arguments Uncontained {A} e.

Definition respond {A} (r : result A) : response A :=
  match r with
  | Ok a => Success a
  | Raise (HTTPException status_code) => ErrorStatus status_code
  | Raise e => Uncontained e
  end.

Section Server.
Context `{C : Collaborators}.

(** A [FrameProducer]: [self.session], [self.container] and the timestamp
    state it inherits from [VideoStreamTrack]. *)
Record FrameProducer : Type := mkFrameProducer {
  session : Session;
  container : Codec;
  clock : Clock
}.

(** The module-level dictionary [sessions], the heaps of [Renderer],
    [RTCPeerConnection] and [FrameProducer] objects (a handle is an index;
    an object is allocated at the end and never freed), and the records
    written so far. *)
Record World : Type := mkWorld {
  sessions : gmap string Session;
  renderers : list Renderer;
  peer_connections : list PeerConnection;
  tracks : list FrameProducer;
  output : list record
}.

Definition World_empty : World := mkWorld ∅ [] [] [] [].

Definition set_sessions (m : gmap string Session) (w : World) : World :=
  mkWorld m (renderers w) (peer_connections w) (tracks w) (output w).

(** A handler run on a world: the world it leaves and what it returns or
    raises; [None] when it follows a handle that is not allocated, which no
    reachable world has, or, for [recv], when the loop is still running. *)
Definition run (A : Type) : Type := option (World * result A).

(** [create_session(session_id, pc)] *)
Definition create_session (session_id : string) (pc : nat) (w : World) : World * Session :=
  let renderer := length (renderers w) in
  let session := mkSession session_id renderer pc in
  (mkWorld (<[session_id := session]> (sessions w)) (renderers w ++ [Renderer_new])
     (peer_connections w) (tracks w) (output w),
   session).

Definition set_peer_connection (pc : nat) (p : PeerConnection) (w : World) : World :=
  mkWorld (sessions w) (renderers w) (<[pc := p]> (peer_connections w)) (tracks w) (output w).

(** One awaited call on the peer connection [pc]. *)
Definition on_pc {A} (pc : nat) (f : PeerConnection -> PeerConnection * result A) (w : World)
  : run A :=
  match peer_connections w !! pc with
  | None => None
  | Some p => let '(p', r) := f p in Some (set_peer_connection pc p' w, r)
  end.

(** [POST /offer]. The two callbacks it installs are [on_connectionstatechange]
    and [on_message] below; they capture [pc], [session_id] and [track]. *)
Definition create_offer (offer : Offer) (session_id : string) (w : World) : run Offer :=
  let pc := length (peer_connections w) in
  let w1 := mkWorld (sessions w) (renderers w)
              (peer_connections w ++ [set_configuration get_ice_servers RTCPeerConnection_new])
              (tracks w) (output w) in
  let '(w2, session) := create_session session_id pc w1 in
  match renderers w2 !! renderer session with
  | None => None
  | Some r =>
      let track := length (tracks w2) in
      let w3 := mkWorld (sessions w2) (renderers w2) (peer_connections w2)
                  (tracks w2 ++ [mkFrameProducer session (CodecContext_create r) Clock_new])
                  (output w2) in
      match on_pc pc (fun p => (addTrack track p, Ok tt)) w3 with
      | None => None
      | Some (w4, _) =>
          match on_pc pc (setRemoteDescription offer) w4 with
          | None => None
          | Some (w5, Raise e) => Some (w5, Raise e)
          | Some (w5, Ok _) =>
              match on_pc pc createAnswer w5 with
              | None => None
              | Some (w6, Raise e) => Some (w6, Raise e)
              | Some (w6, Ok answer) =>
                  match on_pc pc (setLocalDescription answer) w6 with
                  | None => None
                  | Some (w7, Raise e) => Some (w7, Raise e)
                  | Some (w7, Ok _) =>
                      on_pc pc (fun p => (p, Ok (localDescription p))) w7
                  end
              end
          end
      end
  end.

(** [pc.close()]: the connection is closed, and the track it sends goes
    through [track_on_close]. *)
Definition close_track (pc' : nat) (t : FrameProducer) : FrameProducer :=
  if (pc (session t) =? pc')%nat
  then mkFrameProducer (session t) (container t) (track_on_close (clock t))
  else t.

Definition close (pc : nat) (p : PeerConnection) (w : World) : World :=
  mkWorld (sessions w) (renderers w) (<[pc := pc_close p]> (peer_connections w))
    (map (close_track pc) (tracks w)) (output w).

(** The [connectionstatechange] callback of the offer for [session_id] on
    the connection [pc]. *)
Definition on_connectionstatechange (pc : nat) (session_id : string) (w : World) : run unit :=
  match peer_connections w !! pc with
  | None => None
  | Some p =>
      if String.eqb (connectionState p) "failed" then
        let w1 := close pc p w in
        match sessions w1 !! session_id with
        | Some _ => Some (set_sessions (delete session_id (sessions w1)) w1, Ok tt)
        | None => Some (w1, Raise (KeyError session_id))
        end
      else Some (w, Ok tt)
  end.

(** The data channel's [message] callback of the offer whose track is
    [track]. *)
Definition on_message (track : nat) (message : string) (w : World) : run unit :=
  match json_loads message with
  | Raise e => Some (w, Raise e)
  | Ok payload =>
      match getitem payload "type" with
      | Raise e => Some (w, Raise e)
      | Ok ty =>
          if is_camera_update ty then
            match getitem payload "position" with
            | Raise e => Some (w, Raise e)
            | Ok position =>
                match getitem payload "rotation" with
                | Raise e => Some (w, Raise e)
                | Ok rotation =>
                    match from_euler_xyz_degrees rotation with
                    | Raise e => Some (w, Raise e)
                    | Ok rotation =>
                        match tracks w !! track with
                        | None => None
                        | Some t =>
                            match renderers w !! renderer (session t) with
                            | None => None
                            | Some r =>
                                let '(r', res) := update position rotation r in
                                Some (mkWorld (sessions w)
                                        (<[renderer (session t) := r']> (renderers w))
                                        (peer_connections w) (tracks w) (output w), res)
                            end
                        end
                    end
                end
            end
          else Some (w, Ok tt)
      end
  end.

(** [POST /ice-candidate] *)
Definition add_ice_candidate (c : IceCandidate) (session_id : string) (w : World)
  : run unit :=
  match sessions w !! session_id with
  | None => Some (w, Raise (KeyError session_id))
  | Some s =>
      match parse_candidate c with
      | Raise e => Some (w, Raise e)
      | Ok (Some ice_candidate) => on_pc (pc s) (addIceCandidate ice_candidate) w
      | Ok None =>
          Some (mkWorld (sessions w) (renderers w) (peer_connections w) (tracks w)
                  (output w ++ [log_failed_ice (candidate c)]), Ok tt)
      end
  end.

(** [FrameProducer.recv] on the track [track], its loop given [fuel]
    passes. *)
Definition recv (fuel : nat) (track : nat) (w : World) : run VideoFrame :=
  match tracks w !! track with
  | None => None
  | Some t =>
      match renderers w !! renderer (session t) with
      | None => None
      | Some r =>
          let '(clock', stamp_) := next_timestamp (clock t) in
          match stamp_ with
          | Raise e =>
              Some (mkWorld (sessions w) (renderers w) (peer_connections w)
                      (<[track := mkFrameProducer (session t) (container t) clock']> (tracks w))
                      (output w), Raise e)
          | Ok (pts, time_base) =>
              match recv_loop fuel (loop_start r (container t)) with
              | Running _ => None
              | Finished st =>
                  Some (mkWorld (sessions w)
                          (<[renderer (session t) := ls_renderer st]> (renderers w))
                          (peer_connections w)
                          (<[track := mkFrameProducer (session t) (ls_container st) clock']>
                             (tracks w))
                          (output w ++ ls_output st),
                        stamp (frame st) pts time_base)
              end
          end
      end
  end.

(** The transport moves a peer connection to another state on its own
    (negotiation, connectivity checks, failure). *)
Definition transport (pc : nat) (p : PeerConnection) (w : World) : run unit :=
  match peer_connections w !! pc with
  | None => None
  | Some _ => Some (set_peer_connection pc p w, Ok tt)
  end.

(** One event of the server. *)
Inductive step : World -> World -> Prop :=
  | step_create_offer offer session_id w w' r :
      create_offer offer session_id w = Some (w', r) -> step w w'
  | step_add_ice_candidate c session_id w w' r :
      add_ice_candidate c session_id w = Some (w', r) -> step w w'
  | step_on_connectionstatechange pc session_id w w' r :
      on_connectionstatechange pc session_id w = Some (w', r) -> step w w'
  | step_on_message track message w w' r :
      on_message track message w = Some (w', r) -> step w w'
  | step_recv fuel track w w' r :
      recv fuel track w = Some (w', r) -> step w w'
  | step_transport pc p w w' r :
      transport pc p w = Some (w', r) -> step w w'.

Inductive reachable : World -> Prop :=
  | reachable_empty : reachable World_empty
  | reachable_step w w' : reachable w -> step w w' -> reachable w'.

(** A handle of a session is shared when two distinct tracks' sessions hold
    it. *)
Definition shares_handle (s1 s2 : Session) : Prop :=
  renderer s1 = renderer s2 \/ pc s1 = pc s2.

(** The parts of the world other than the peer-connection heap. *)
Definition same_but_pcs (w w' : World) : Prop :=
  sessions w' = sessions w /\ renderers w' = renderers w /\
  tracks w' = tracks w /\ output w' = output w.

(** The sessions made so far, in the order they were made: each track
    holds the session it was made for. *)
Definition created (w : World) : list Session := map session (tracks w).

(** Every registry entry is stored under its own identifier and is a
    session that [create_offer] made. *)
Definition registry_sound (w : World) : Prop :=
  forall sid s, sessions w !! sid = Some s -> session_id s = sid /\ s ∈ created w.

(** The handles of every session made are allocated. *)
Definition handles_allocated (w : World) : Prop :=
  forall s, s ∈ created w ->
            renderer s < length (renderers w) /\ pc s < length (peer_connections w).

(** No two of the sessions made share a renderer or a peer connection. *)
Definition handles_unshared (w : World) : Prop :=
  forall i j s1 s2, created w !! i = Some s1 -> created w !! j = Some s2 ->
                    shares_handle s1 s2 -> i = j.

Definition invariant (w : World) : Prop :=
  registry_sound w /\ handles_allocated w /\ handles_unshared w.

(** An event that makes no session: the registry may lose entries, the heaps
    keep their sizes, the sessions made stay the same. *)
Definition makes_no_session (w w' : World) : Prop :=
  (forall sid s, sessions w' !! sid = Some s -> sessions w !! sid = Some s) /\
  length (renderers w') = length (renderers w) /\
  length (peer_connections w') = length (peer_connections w) /\
  created w' = created w.

End Server.

(** ** Stub collaborators

    Concrete collaborators to run the handlers on, under an interpreter
    with the default limit of 4300 digits: a renderer whose n-th
    [render()] call answers [behaviour n]; a codec that makes one packet of
    the buffer it is given and decodes it to one frame, to no frame when the
    buffer starts with byte 00, and raises when it starts with byte ff; a
    track clock that advances by 3000 ticks of 1/90000 s and raises once the
    track has ended; a peer connection that records its state and the
    candidates it was given. [ends_track] says whether closing a connection
    ends its track. *)

Record StubClock : Type := mkStubClock {
  ended : bool;
  timestamp : option Z
}.

Record StubPeerConnection : Type := mkStubPeerConnection {
  stub_state : string;
  stub_tracks : list nat;
  stub_candidates : list RTCIceCandidate
}.

Definition stub_decode (packet : bytes) : result (list (bytes * option Z * option (Z * Z))) :=
  match packet with
  | Byte.x00 :: _ => Ok []
  | Byte.xff :: _ => Raise (LibraryError 1)
  | _ => Ok [(packet, None, None)]
  end.

Definition stub_next_timestamp (c : StubClock) : StubClock * result (Z * (Z * Z)) :=
  if ended c then (c, Raise (LibraryError 2))
  else
    match timestamp c with
    | None => (mkStubClock false (Some 0%Z), Ok (0%Z, (1%Z, 90000%Z)))
    | Some t => (mkStubClock false (Some (t + 3000)%Z), Ok ((t + 3000)%Z, (1%Z, 90000%Z)))
    end.

Definition stub_json_loads (message : string) : result Json :=
  if String.eqb message "camera"
  then Ok (JObj [("type", JStr "camera_update"); ("position", JArr []); ("rotation", JArr [])])
  else if String.eqb message "ping" then Ok (JObj [("type", JStr "ping")])
  else Raise (LibraryError 3).

Definition stub (behaviour : nat -> result (option bytes)) (ends_track : bool)
  : Collaborators := {|
  Renderer := nat;
  Codec := unit;
  Packet := bytes;
  Image := bytes;
  TimeBase := Z * Z;
  Clock := StubClock;
  PeerConnection := StubPeerConnection;
  Matrix := Json;
  IceServers := unit;
  Renderer_new := 0;
  render := fun n => (S n, behaviour n);
  update := fun _ _ n => (n, Ok tt);
  CodecContext_create := fun _ => tt;
  codec_parse := fun c data => (c, Ok [data]);
  codec_decode := fun c packet => (c, stub_decode packet);
  Clock_new := mkStubClock false None;
  next_timestamp := stub_next_timestamp;
  track_on_close := fun c => mkStubClock (ends_track || ended c) (timestamp c);
  RTCPeerConnection_new := mkStubPeerConnection "new" [] [];
  get_ice_servers := tt;
  set_configuration := fun _ p => p;
  addTrack := fun t p => mkStubPeerConnection (stub_state p) (t :: stub_tracks p) (stub_candidates p);
  connectionState := stub_state;
  pc_close := fun p => mkStubPeerConnection "closed" (stub_tracks p) (stub_candidates p);
  setRemoteDescription := fun offer p =>
    (p, if String.eqb (sdp offer) "" then Raise (LibraryError 4) else Ok tt);
  createAnswer := fun p => (p, Ok (mkOffer "v=0" "answer"));
  setLocalDescription := fun _ p => (p, Ok tt);
  localDescription := fun _ => mkOffer "v=0" "answer";
  addIceCandidate := fun c p =>
    (mkStubPeerConnection (stub_state p) (stub_tracks p) (c :: stub_candidates p), Ok tt);
  from_euler_xyz_degrees := fun rotation => Ok rotation;
  json_loads := stub_json_loads;
  max_str_digits := 4300
|}.

(** Renderer behaviours: always a picture, never any data, always an
    exception, always a buffer the codec makes no frame of. *)
Definition renders_picture : nat -> result (option bytes) :=
  fun _ => Ok (Some [Byte.x01; Byte.x02]).
Definition renders_nothing : nat -> result (option bytes) := fun _ => Ok None.
Definition renders_empty : nat -> result (option bytes) := fun _ => Ok (Some []).
Definition render_raises : nat -> result (option bytes) := fun _ => Raise (LibraryError 5).
Definition renders_undecodable : nat -> result (option bytes) :=
  fun _ => Ok (Some [Byte.x00]).

Definition an_offer : Offer := mkOffer "v=0 offer" "offer".

(** The world a handler leaves, and its outcome; the world itself when the
    handler has no result. *)
Definition world_after `{C : Collaborators} {A} (w : World) (x : run A) : World :=
  match x with
  | Some (w', _) => w'
  | None => w
  end.

Definition outcome `{C : Collaborators} {A} (x : run A) : option (result A) :=
  match x with
  | Some (_, r) => Some r
  | None => None
  end.

(** One offer for the session ["s"] has been answered. *)
Definition one_session `{C : Collaborators} : World :=
  world_after World_empty (create_offer an_offer "s" World_empty).

(** ... and its connection, handle 0, has failed. *)
Definition failed_connection (C : Collaborators) (failed : PeerConnection) : World :=
  world_after one_session (transport 0 failed one_session).

(** The value of a string of decimal digits in positional notation, most
    significant digit first. *)
Fixpoint decimal_value (s : string) : N :=
  match s with
  | EmptyString => 0%N
  | String c s' => (digit_value c * 10 ^ N.of_nat (String.length s') + decimal_value s')%N
  end.

Fixpoint count_char (c : ascii) (s : string) : nat :=
  match s with
  | EmptyString => 0
  | String d s' => (if Ascii.eqb c d then 1 else 0) + count_char c s'
  end.

(** A host candidate as the grammar has it, and a server-reflexive
    candidate as browsers send it, with the related address after the
    type. *)
Definition a_candidate : IceCandidate :=
  mkIceCandidate "candidate:1 1 udp 2122260223 192.168.1.7 54321 typ host" 0 "0" "abcd".

Definition a_srflx_candidate : IceCandidate :=
  mkIceCandidate
    "candidate:842163049 1 udp 1677729535 203.0.113.5 46154 typ srflx raddr 10.0.0.2 rport 46154"
    0 "0" "abcd".

(** [GET /ice-servers] *)
Definition get_ice `{C : Collaborators} (w : World) : run IceServers :=
  Some (w, Ok get_ice_servers).

(** Two offers answered, for the sessions ["a"] and ["b"]; and two offers
    answered for the same session ["s"]. *)
Definition two_sessions `{C : Collaborators} : World :=
  let w := world_after World_empty (create_offer an_offer "a" World_empty) in
  world_after w (create_offer an_offer "b" w).

Definition duplicate_sessions `{C : Collaborators} : World :=
  world_after one_session (create_offer an_offer "s" one_session).

(** [w'] differs from [w] at most in the track [track], the renderer
    [renderer] and the records written. *)
Definition touches_only `{C : Collaborators} (track renderer : nat) (w w' : World) : Prop :=
  sessions w' = sessions w /\
  peer_connections w' = peer_connections w /\
  (forall other, other <> track -> tracks w' !! other = tracks w !! other) /\
  (forall other, other <> renderer -> renderers w' !! other = renderers w !! other) /\
  exists out, output w' = output w ++ out.

(** No record of an exhausted pull among [out]. *)
Definition failed_render_free (out : list record) : Prop :=
  forall n, log_failed_render n ∉ out.

(** The stub collaborators with a renderer that works and a close that
    leaves the track live; a peer connection of theirs that has failed; the
    frame their first pull returns; a request the stub connection refuses. *)
Definition stub_ok : Collaborators := stub renders_picture false.

Definition a_failed_connection : @PeerConnection stub_ok :=
  mkStubPeerConnection "failed" [0] [].

Definition first_frame : VideoFrame (H := stub_ok) :=
  mkVideoFrame stub_ok [Byte.x01; Byte.x02] (Some 0%Z) (Some (1%Z, 90000%Z)).

Definition an_empty_offer : Offer := mkOffer "" "offer".

Definition not_a_candidate : IceCandidate :=
  mkIceCandidate "a=candidate:1 1 udp 2122260223 192.168.1.7 54321 typ host" 0 "0" "abcd".

(** After two offers for ["s"], the first connection has failed; and then
    the second as well. *)
Definition stale_failure : World (C := stub_ok) :=
  world_after duplicate_sessions
    (transport (C := stub_ok) 0 a_failed_connection duplicate_sessions).

Definition another_failed_connection : @PeerConnection stub_ok :=
  mkStubPeerConnection "failed" [1] [].

Definition both_failed : World (C := stub_ok) :=
  world_after stale_failure
    (transport (C := stub_ok) 1 another_failed_connection stale_failure).

(** The state a run of the loop has reached. *)
Definition loop_end `{C : Collaborators} (r : loop_run) : LoopState :=
  match r with
  | Finished st => st
  | Running st => st
  end.

(** * Properties *)

(** ** [parse_frame] *)

Section ParseFrameFacts.
Context `{C : Collaborators}.

(** What the two nested loops compute: the first frame of the first packet
    that decodes to any, the packets before it having decoded to nothing;
    or nothing at all; or the first exception. *)
Lemma decode_packets_spec (packets : list Packet) (c : Codec) :
  match decode_packets c packets with
  | (c', Ok (Some f)) =>
      exists pre p post c2 fr more,
        packets = pre ++ p :: post /\ decodes_nothing c pre c2 /\
        codec_decode c2 p = (c', Ok (fr :: more)) /\ f = as_frame fr
  | (c', Ok None) => decodes_nothing c packets c'
  | (c', Raise e) =>
      exists pre p post c2,
        packets = pre ++ p :: post /\ decodes_nothing c pre c2 /\
        codec_decode c2 p = (c', Raise e)
  end.
Proof.
  revert c. induction packets as [|p ps IH]; intros c; simpl.
  - constructor.
  - destruct (codec_decode c p) as [c1 [[|fr more]|e]] eqn:Hd.
    + specialize (IH c1). destruct (decode_packets c1 ps) as [c' [[f|]|e]].
      * destruct IH as (pre & q & post & c2 & fr & more & -> & Hpre & Hq & ->).
        exists (p :: pre), q, post, c2, fr, more. repeat split; auto.
        econstructor; eauto.
      * econstructor; eauto.
      * destruct IH as (pre & q & post & c2 & -> & Hpre & Hq).
        exists (p :: pre), q, post, c2. repeat split; auto.
        econstructor; eauto.
    + exists [], p, ps, c, fr, more. repeat split; auto. constructor.
    + exists [], p, ps, c. repeat split; auto. constructor.
Qed.

(** C10. For every codec context and every buffer, [parse_frame] returns
    and never raises. What it returns is the first frame decoded from the
    packets of the buffer: the packets before it decoded to no frame, and
    the frames decoded after it in the same packet, and all later packets,
    are dropped. Otherwise it returns [None]: either every packet decoded to
    no frame and nothing is logged, or [container.parse] or a
    [container.decode] raised, and the exception is logged and its
    traceback printed. *)
Theorem parse_frame_first_frame_or_None (container : Codec) (data : bytes) :
  exists container' out o,
    parse_frame container data = (container', out, Ok o) /\
    match o with
    | Some f =>
        out = [] /\
        exists c1 pre p post c2 fr more,
          codec_parse container data = (c1, Ok (pre ++ p :: post)) /\
          decodes_nothing c1 pre c2 /\
          codec_decode c2 p = (container', Ok (fr :: more)) /\ f = as_frame fr
    | None =>
        (out = [] /\
         exists c1 packets,
           codec_parse container data = (c1, Ok packets) /\
           decodes_nothing c1 packets container')
        \/ (exists e,
              out = [log_error e; print_exc e] /\
              (codec_parse container data = (container', Raise e)
               \/ exists c1 pre p post c2,
                    codec_parse container data = (c1, Ok (pre ++ p :: post)) /\
                    decodes_nothing c1 pre c2 /\
                    codec_decode c2 p = (container', Raise e)))
    end.
Proof.
  unfold parse_frame, parse_frame_try.
  destruct (codec_parse container data) as [c1 [packets|e]] eqn:Hp.
  - pose proof (decode_packets_spec packets c1) as Hs.
    destruct (decode_packets c1 packets) as [c' [[f|]|e]].
    + destruct Hs as (pre & p & post & c2 & fr & more & -> & Hpre & Hq & ->).
      eexists _, _, _. split; [reflexivity|]. split; [reflexivity|].
      exists c1, pre, p, post, c2, fr, more. auto.
    + eexists _, _, _. split; [reflexivity|]. left. split; [reflexivity|].
      exists c1, packets. auto.
    + destruct Hs as (pre & p & post & c2 & -> & Hpre & Hq).
      eexists _, _, _. split; [reflexivity|]. right. exists e. split; [reflexivity|].
      right. exists c1, pre, p, post, c2. auto.
  - eexists _, _, _. split; [reflexivity|]. right. exists e. split; [reflexivity|].
    left. reflexivity.
Qed.

Lemma parse_frame_returns (container : Codec) (data : bytes) :
  exists container' out o, parse_frame container data = (container', out, Ok o).
Proof.
  unfold parse_frame.
  destruct (parse_frame_try container data) as [c' [[f|]|e]]; eauto.
Qed.

End ParseFrameFacts.

(** ** The retry loop of [recv] *)

Section RecvFacts.
Context `{C : Collaborators}.

Lemma except_clause_spec (e : exn) (st : LoopState) :
  let '(st', ctl) := except_clause e st in
  ls_renderer st' = ls_renderer st /\ ls_container st' = ls_container st /\
  frame st' = frame st /\ render_calls st' = render_calls st /\
  failed_attempts st' = S (failed_attempts st) /\
  (ctl = Break <-> max_failed_attempts <= S (failed_attempts st)).
Proof.
  unfold except_clause.
  destruct (Nat.leb_spec max_failed_attempts (S (failed_attempts st))); simpl;
    repeat split; auto; try discriminate; lia.
Qed.

(** One pass calls [render()] once; it either breaks with a frame, or
    leaves [frame] without a frame and the counter as it was or one
    higher, breaking when the counter reaches the bound. *)
Lemma recv_iteration_spec (st : LoopState) :
  no_frame st ->
  let '(st', ctl) := recv_iteration st in
  render_calls st' = S (render_calls st) /\
  ((ctl = Break /\ (exists f, frame st' = Bound (Some f)) /\
    failed_attempts st' = failed_attempts st)
   \/ (no_frame st' /\ failed_attempts st' = S (failed_attempts st) /\
       (ctl = Break <-> max_failed_attempts <= S (failed_attempts st)))
   \/ (no_frame st' /\ failed_attempts st' = failed_attempts st /\ ctl = Continue /\
       match snd (render (ls_renderer st)) with
       | Ok None | Ok (Some []) => True
       | _ => False
       end)).
Proof.
  intros Hnf. unfold recv_iteration.
  destruct (render (ls_renderer st)) as [r' [[data|]|e]] eqn:Hr; simpl.
  - destruct data as [|b data]; simpl.
    + split; [reflexivity|]. right. right. auto.
    + destruct (parse_frame (ls_container st) (b :: data)) as [[c' out] parsed] eqn:Hp.
      destruct (parse_frame_returns (ls_container st) (b :: data)) as (c2 & out2 & o & Ho).
      rewrite Hp in Ho. injection Ho as -> -> ->.
      destruct o as [f|].
      * split; [reflexivity|]. left. simpl. eauto.
      * match goal with |- context [except_clause ?e ?s] =>
          pose proof (except_clause_spec e s) as He; destruct (except_clause e s) as [st' ctl]
        end.
        simpl in He. destruct He as (_ & _ & Hf & Hc & Hfa & Hb).
        split; [exact Hc|]. right. left. split; [right; exact Hf|]. auto.
  - split; [reflexivity|]. right. right. auto.
  - match goal with |- context [except_clause ?e ?s] =>
      pose proof (except_clause_spec e s) as He; destruct (except_clause e s) as [st' ctl]
    end.
    simpl in He. destruct He as (_ & _ & Hf & Hc & Hfa & Hb).
    split; [exact Hc|]. right. left. split; [|auto].
    unfold no_frame in *. rewrite Hf. exact Hnf.
Qed.

(** When the loop ends it has either a frame and fewer than ten failures,
    or no frame and exactly ten failures. *)
Lemma recv_loop_finished (fuel : nat) (st st' : LoopState) :
  no_frame st -> failed_attempts st < max_failed_attempts ->
  recv_loop fuel st = Finished st' ->
  ((exists f, frame st' = Bound (Some f)) /\ failed_attempts st' < max_failed_attempts)
  \/ (no_frame st' /\ failed_attempts st' = max_failed_attempts).
Proof.
  revert st. induction fuel as [|fuel IH]; intros st Hnf Hlt; simpl; [discriminate|].
  pose proof (recv_iteration_spec st Hnf) as Hs.
  destruct (recv_iteration st) as [st1 ctl].
  destruct Hs as (_ & [(-> & Hf & Hfa) | [(Hnf1 & Hfa & Hb) | (Hnf1 & Hfa & -> & _)]]).
  - intros [= <-]. left. split; [exact Hf | lia].
  - destruct ctl.
    + intros [= <-]. right. split; [exact Hnf1|].
      destruct Hb as [Hb _]. specialize (Hb eq_refl). lia.
    + apply IH; [exact Hnf1|].
      destruct (Nat.le_gt_cases max_failed_attempts (S (failed_attempts st))) as [Hle|Hgt].
      * destruct Hb as [_ Hb]. specialize (Hb Hle). discriminate.
      * lia.
  - apply IH; [exact Hnf1 | lia].
Qed.

(** Exhaustion never returns: with ten failures counted, the statements
    after the loop raise. *)
Lemma recv_exhausted_raises (fuel : nat) (r : Renderer) (c : Codec) (st' : LoopState)
    (pts : Z) (tb : TimeBase) :
  recv_loop fuel (loop_start r c) = Finished st' ->
  failed_attempts st' = max_failed_attempts ->
  stamp (frame st') pts tb = Raise (UnboundLocalError "frame")
  \/ stamp (frame st') pts tb = Raise (AttributeError "pts").
Proof.
  intros Hrun Hfa.
  apply recv_loop_finished in Hrun; [| left; reflexivity | unfold max_failed_attempts; simpl; lia].
  destruct Hrun as [[_ Hlt] | [[Hf | Hf] _]]; [lia | |]; rewrite Hf; simpl; auto.
Qed.

(** With a renderer that never answers "no data", every pass that does not
    break counts a failure, so the loop ends within the passes the bound
    leaves: at most ten [render()] calls from the start of a pull. *)
Lemma recv_loop_bounded_when_never_empty (n : nat) (st : LoopState) :
  never_empty -> no_frame st ->
  failed_attempts st + n = max_failed_attempts -> 0 < n ->
  exists st', recv_loop n st = Finished st' /\ render_calls st' <= render_calls st + n.
Proof.
  intros Hne. revert st. induction n as [|n IH]; intros st Hnf Hsum Hpos; [lia|].
  simpl. pose proof (recv_iteration_spec st Hnf) as Hs.
  destruct (recv_iteration st) as [st1 ctl].
  destruct Hs as (Hc & [(-> & Hf & Hfa) | [(Hnf1 & Hfa & Hb) | (Hnf1 & Hfa & -> & Hempty)]]).
  - exists st1. split; [reflexivity | lia].
  - destruct ctl.
    + exists st1. split; [reflexivity | lia].
    + destruct n as [|n].
      * destruct Hb as [_ Hb]. assert (Hle : max_failed_attempts <= S (failed_attempts st)) by lia.
        specialize (Hb Hle). discriminate.
      * destruct (IH st1 Hnf1) as (st' & Hrun & Hle); [lia | lia |].
        exists st'. split; [exact Hrun | lia].
  - exfalso. specialize (Hne (ls_renderer st)).
    destruct (snd (render (ls_renderer st))) as [[[|b data]|]|e]; auto.
Qed.

(** With a renderer that always answers "no data" ([None] or an empty
    buffer) no pass counts a failure and none breaks. *)
Lemma recv_loop_spins (fuel : nat) (st : LoopState) :
  (forall r, snd (render r) = Ok None \/ snd (render r) = Ok (Some [])) ->
  exists st', recv_loop fuel st = Running st' /\
              render_calls st' = render_calls st + fuel /\
              failed_attempts st' = failed_attempts st.
Proof.
  intros Hempty. revert st. induction fuel as [|fuel IH]; intros st; simpl.
  - exists st. split; [reflexivity | lia].
  - unfold recv_iteration. specialize (Hempty (ls_renderer st)) as He.
    destruct (render (ls_renderer st)) as [r' data]. simpl in He.
    destruct He as [-> | ->]; simpl;
      match goal with |- context [recv_loop fuel ?s] =>
        destruct (IH s) as (st' & Hrun & Hc & Hf)
      end; exists st'; simpl in *; (split; [exact Hrun | split; [lia | exact Hf]]).
Qed.

End RecvFacts.

(** ** The handlers *)

Section ServerFacts.
Context `{C : Collaborators}.

Lemma on_pc_last {A} (f : PeerConnection -> PeerConnection * result A) (w : World)
    (l : list PeerConnection) (p : PeerConnection) :
  peer_connections w = l ++ [p] ->
  exists w', on_pc (length l) f w = Some (w', snd (f p)) /\
             peer_connections w' = l ++ [fst (f p)] /\ same_but_pcs w w'.
Proof.
  intros Hl. unfold on_pc. rewrite Hl, list_lookup_middle by reflexivity.
  destruct (f p) as [p' r]. eexists. split; [reflexivity|].
  unfold set_peer_connection, same_but_pcs; simpl. split; [|auto].
  rewrite Hl, insert_app_r_alt by lia. rewrite Nat.sub_diag. reflexivity.
Qed.

Lemma same_but_pcs_trans (w1 w2 w3 : World) :
  same_but_pcs w1 w2 -> same_but_pcs w2 w3 -> same_but_pcs w1 w3.
Proof. unfold same_but_pcs. intros (-> & -> & -> & ->) (-> & -> & -> & ->). auto. Qed.

(** [create_offer] always runs to a result, and whatever the result (an
    answer, or an exception of the negotiation) it has by then allocated a
    renderer, a peer connection and a track, and stored the new session
    under [session_id]. *)
Lemma create_offer_spec (offer : Offer) (session_id : string) (w : World) :
  let s := mkSession session_id (length (renderers w)) (length (peer_connections w)) in
  exists w' r p,
    create_offer offer session_id w = Some (w', r) /\
    sessions w' = <[session_id := s]> (sessions w) /\
    renderers w' = renderers w ++ [Renderer_new] /\
    peer_connections w' = peer_connections w ++ [p] /\
    tracks w' = tracks w ++ [mkFrameProducer s (CodecContext_create Renderer_new) Clock_new] /\
    output w' = output w.
Proof.
  intros s. unfold create_offer, create_session. simpl.
  rewrite list_lookup_middle by reflexivity.
  match goal with |- context [on_pc _ _ ?w3] => set (w3' := w3) end.
  assert (H3 : peer_connections w3' =
               peer_connections w ++ [set_configuration get_ice_servers RTCPeerConnection_new])
    by reflexivity.
  destruct (on_pc_last (fun p => (addTrack (length (tracks w)) p, Ok tt)) w3' _ _ H3)
    as (w4 & -> & H4 & S4). simpl in H4.
  destruct (on_pc_last (setRemoteDescription offer) w4 _ _ H4) as (w5 & -> & H5 & S5).
  pose proof (same_but_pcs_trans _ _ _ S4 S5) as T5.
  destruct (setRemoteDescription offer _) as [p5 [[]|e]]; simpl in *;
    [| exists w5, (Raise e), p5; destruct T5 as (-> & -> & -> & ->); auto 10].
  destruct (on_pc_last createAnswer w5 _ _ H5) as (w6 & -> & H6 & S6).
  pose proof (same_but_pcs_trans _ _ _ T5 S6) as T6.
  destruct (createAnswer p5) as [p6 [answer|e]]; simpl in *;
    [| exists w6, (Raise e), p6; destruct T6 as (-> & -> & -> & ->); auto 10].
  destruct (on_pc_last (setLocalDescription answer) w6 _ _ H6) as (w7 & -> & H7 & S7).
  pose proof (same_but_pcs_trans _ _ _ T6 S7) as T7.
  destruct (setLocalDescription answer p6) as [p7 [[]|e]]; simpl in *;
    [| exists w7, (Raise e), p7; destruct T7 as (-> & -> & -> & ->); auto 10].
  destruct (on_pc_last (fun p => (p, Ok (localDescription p))) w7 _ _ H7)
    as (w8 & -> & H8 & S8).
  pose proof (same_but_pcs_trans _ _ _ T7 S8) as T8. simpl in *.
  exists w8, (Ok (localDescription p7)), p7. destruct T8 as (-> & -> & -> & ->). auto 10.
Qed.

(** [recv] leaves the registry as it is. *)
Lemma recv_sessions (fuel track : nat) (w w' : World) (r : result VideoFrame) :
  recv fuel track w = Some (w', r) -> sessions w' = sessions w.
Proof.
  unfold recv. intros H.
  destruct (tracks w !! track) as [t|]; [|discriminate].
  destruct (renderers w !! renderer (session t)) as [rd|]; [|discriminate].
  destruct (next_timestamp (clock t)) as [clock' [[pts tb]|e]].
  - destruct (recv_loop fuel _) as [st|st]; [|discriminate].
    injection H as <- _. reflexivity.
  - injection H as <- _. reflexivity.
Qed.

(** [recv] never reads the registry: with any other registry in place it
    does the same, and leaves that registry in place. *)
Lemma recv_ignores_sessions (fuel track : nat) (m : gmap string Session) (w : World) :
  recv fuel track (set_sessions m w)
  = match recv fuel track w with
    | Some (w', r) => Some (set_sessions m w', r)
    | None => None
    end.
Proof.
  unfold recv, set_sessions; simpl.
  destruct (tracks w !! track) as [t|]; [|reflexivity].
  destruct (renderers w !! renderer (session t)) as [rd|]; [|reflexivity].
  destruct (next_timestamp (clock t)) as [clock' [[pts tb]|e]]; [|reflexivity].
  destruct (recv_loop fuel _) as [st|st]; reflexivity.
Qed.

End ServerFacts.

(** ** Duplicate and unknown session identifiers *)

Section RegistryFacts.
Context `{C : Collaborators}.

(** [create_offer] never reads the registry: it runs the same whatever the
    registry holds. *)
Lemma create_offer_ignores_sessions (offer : Offer) (session_id : string)
    (m : gmap string Session) (w : World) :
  outcome (create_offer offer session_id (set_sessions m w))
  = outcome (create_offer offer session_id w).
Proof.
  unfold create_offer, create_session, on_pc, set_peer_connection, set_sessions; simpl.
  repeat (case_match; simplify_eq/=; try reflexivity).
Qed.

(** C2, as amended. [create_offer] has no check for an identifier that is
    already registered: for every registry it runs as it does for a new
    identifier (same answer or same exception), allocates a new renderer, a
    new peer connection and a new track, and stores the new session under
    the identifier, replacing the entry that was there; the entries of all
    other identifiers stay. *)
Theorem create_offer_replaces_session (offer : Offer) (session_id : string) (w : World) :
  exists w' r,
    create_offer offer session_id w = Some (w', r) /\
    (forall m, outcome (create_offer offer session_id (set_sessions m w)) = Some r) /\
    sessions w' !! session_id
    = Some (mkSession session_id (length (renderers w)) (length (peer_connections w))) /\
    (forall other, other <> session_id -> sessions w' !! other = sessions w !! other) /\
    renderers w' = renderers w ++ [Renderer_new] /\
    length (peer_connections w') = S (length (peer_connections w)) /\
    length (tracks w') = S (length (tracks w)).
Proof.
  destruct (create_offer_spec offer session_id w) as (w' & r & p & Hrun & Hs & Hr & Hp & Ht & _).
  exists w', r. split; [exact Hrun|]. split.
  { intros m. rewrite create_offer_ignores_sessions, Hrun. reflexivity. }
  rewrite Hs, Hr, Hp, Ht, !length_app. simpl.
  split; [apply lookup_insert_eq|].
  split; [intros other Hne; apply lookup_insert_ne; congruence|].
  split; [reflexivity|]. split; lia.
Qed.

(** C5, as amended. For an identifier that is not in the registry
    [add_ice_candidate] raises [KeyError] at the registry lookup, before it
    looks at the candidate; the handler does not catch it, so it leaves the
    application as it is (no status such as 404 is made of it); the world
    is unchanged. *)
Theorem add_ice_candidate_unknown_session_raises_KeyError
    (c : IceCandidate) (session_id : string) (w : World) :
  sessions w !! session_id = None ->
  add_ice_candidate c session_id w = Some (w, Raise (KeyError session_id)) /\
  respond (Raise (KeyError session_id) : result unit) = Uncontained (KeyError session_id).
Proof.
  intros H. unfold add_ice_candidate. rewrite H. split; reflexivity.
Qed.

(** What the [connectionstatechange] callback does when the state is
    [failed]: close, then delete the entry; the deletion raises [KeyError]
    when the entry is no longer there. *)
Lemma on_connectionstatechange_failed (pc : nat) (session_id : string) (w : World)
    (p : PeerConnection) :
  peer_connections w !! pc = Some p ->
  connectionState p = "failed" ->
  on_connectionstatechange pc session_id w
  = Some (set_sessions (delete session_id (sessions w)) (close pc p w),
          match sessions w !! session_id with
          | Some _ => Ok tt
          | None => Raise (KeyError session_id)
          end).
Proof.
  intros Hp Hf. unfold on_connectionstatechange. rewrite Hp, Hf. simpl.
  destruct (sessions w !! session_id) eqn:Hs; [reflexivity|].
  unfold set_sessions, close; simpl. rewrite delete_id by exact Hs. reflexivity.
Qed.

(** In any other state the callback does nothing. *)
Lemma on_connectionstatechange_other (pc : nat) (session_id : string) (w : World)
    (p : PeerConnection) :
  peer_connections w !! pc = Some p ->
  connectionState p <> "failed" ->
  on_connectionstatechange pc session_id w = Some (w, Ok tt).
Proof.
  intros Hp Hf. unfold on_connectionstatechange. rewrite Hp.
  destruct (String.eqb_spec (connectionState p) "failed"); [contradiction | reflexivity].
Qed.

(** After the teardown of a failed connection, a candidate for its
    identifier raises [KeyError] as for any unknown identifier. *)
Lemma add_ice_candidate_after_teardown (c : IceCandidate) (pc : nat) (session_id : string)
    (w w' : World) (p : PeerConnection) (r : result unit) :
  peer_connections w !! pc = Some p ->
  connectionState p = "failed" ->
  on_connectionstatechange pc session_id w = Some (w', r) ->
  add_ice_candidate c session_id w' = Some (w', Raise (KeyError session_id)).
Proof.
  intros Hp Hf Hrun. rewrite (on_connectionstatechange_failed _ _ _ _ Hp Hf) in Hrun.
  injection Hrun as <- _. unfold add_ice_candidate, set_sessions; simpl.
  rewrite lookup_delete_eq. reflexivity.
Qed.

(** C4, as amended. When the connection's state is [failed], the callback
    closes the peer connection and then removes the registry entry of its
    identifier, leaving all others. [recv] does not look at the registry or
    at the connection: a pull after the teardown does what it does after
    the close alone, so it stops returning frames only if closing the
    connection has ended the track. *)
Theorem teardown_closes_and_removes_but_recv_ignores_it
    (pc : nat) (session_id : string) (w : World) (p : PeerConnection) :
  peer_connections w !! pc = Some p ->
  connectionState p = "failed" ->
  exists w' r,
    on_connectionstatechange pc session_id w = Some (w', r) /\
    peer_connections w' !! pc = Some (pc_close p) /\
    sessions w' !! session_id = None /\
    (forall other, other <> session_id -> sessions w' !! other = sessions w !! other) /\
    (forall fuel track,
        recv fuel track w'
        = match recv fuel track (close pc p w) with
          | Some (w'', x) => Some (set_sessions (sessions w') w'', x)
          | None => None
          end).
Proof.
  intros Hp Hf. rewrite (on_connectionstatechange_failed _ _ _ _ Hp Hf).
  eexists _, _. split; [reflexivity|]. simpl.
  split. { apply list_lookup_insert_eq. eapply lookup_lt_Some; eauto. }
  split; [apply lookup_delete_eq|].
  split; [intros other Hne; apply lookup_delete_ne; congruence|].
  intros fuel track. apply recv_ignores_sessions.
Qed.

(** A pull whose loop is still running has no result. *)
Lemma recv_running (fuel track : nat) (w : World) (t : FrameProducer)
    (r : Renderer) (clock' : Clock) (pts : Z) (tb : TimeBase) (st : LoopState) :
  tracks w !! track = Some t ->
  renderers w !! renderer (session t) = Some r ->
  next_timestamp (clock t) = (clock', Ok (pts, tb)) ->
  recv_loop fuel (loop_start r (container t)) = Running st ->
  recv fuel track w = None.
Proof.
  intros Ht Hr Hn Hl. unfold recv. rewrite Ht, Hr, Hn, Hl. reflexivity.
Qed.

(** A pull on a track that has ended raises at [next_timestamp], before any
    [render()] call. *)
Lemma recv_on_ended_track (fuel track : nat) (w : World) (t : FrameProducer)
    (r : Renderer) (clock' : Clock) (e : exn) :
  tracks w !! track = Some t ->
  renderers w !! renderer (session t) = Some r ->
  next_timestamp (clock t) = (clock', Raise e) ->
  outcome (recv fuel track w) = Some (Raise e) /\
  renderers (world_after w (recv fuel track w)) = renderers w.
Proof.
  intros Ht Hr Hn. unfold recv. rewrite Ht, Hr, Hn. split; reflexivity.
Qed.

End RegistryFacts.

(** ** The registry invariant *)

Section InvariantFacts.
Context `{C : Collaborators}.

Lemma invariant_empty : invariant World_empty.
Proof.
  split; [|split].
  - intros sid s H. simpl in H. rewrite lookup_empty in H. discriminate.
  - intros s H. unfold created in H. simpl in H. inversion H.
  - intros i j s1 s2 H. unfold created in H. simpl in H. discriminate.
Qed.

Lemma invariant_makes_no_session (w w' : World) :
  invariant w -> makes_no_session w w' -> invariant w'.
Proof.
  intros (Hreg & Halloc & Huniq) (Hs & Hr & Hp & Hc).
  unfold invariant, registry_sound, handles_allocated, handles_unshared.
  rewrite Hc, Hr, Hp. split; [|split]; [|exact Halloc|exact Huniq].
  intros sid s H. apply Hreg, Hs, H.
Qed.

Lemma makes_no_session_refl (w : World) : makes_no_session w w.
Proof. repeat split; auto. Qed.

Lemma on_pc_makes_no_session {A} (pc : nat) (f : PeerConnection -> PeerConnection * result A)
    (w w' : World) (r : result A) :
  on_pc pc f w = Some (w', r) -> makes_no_session w w'.
Proof.
  unfold on_pc. destruct (peer_connections w !! pc) as [p|]; [|discriminate].
  destruct (f p) as [p' x]. intros [= <- _].
  unfold makes_no_session, set_peer_connection, created; simpl.
  rewrite length_insert. auto.
Qed.

Lemma add_ice_candidate_makes_no_session (c : IceCandidate) (session_id : string)
    (w w' : World) (r : result unit) :
  add_ice_candidate c session_id w = Some (w', r) -> makes_no_session w w'.
Proof.
  unfold add_ice_candidate.
  destruct (sessions w !! session_id) as [s|];
    [| intros [= <- _]; apply makes_no_session_refl].
  destruct (parse_candidate c) as [[ice|]|e].
  - apply on_pc_makes_no_session.
  - intros [= <- _]. repeat split; auto.
  - intros [= <- _]. apply makes_no_session_refl.
Qed.

Lemma created_close (pc : nat) (p : PeerConnection) (w : World) :
  created (close pc p w) = created w.
Proof.
  unfold created, close; simpl. rewrite map_map. apply map_ext.
  intros t. unfold close_track. destruct (_ =? _)%nat; reflexivity.
Qed.

Lemma on_connectionstatechange_makes_no_session (pc : nat) (session_id : string)
    (w w' : World) (r : result unit) :
  on_connectionstatechange pc session_id w = Some (w', r) -> makes_no_session w w'.
Proof.
  unfold on_connectionstatechange.
  destruct (peer_connections w !! pc) as [p|]; [|discriminate].
  destruct (String.eqb _ _); [| intros [= <- _]; apply makes_no_session_refl].
  assert (Hclose : makes_no_session w (close pc p w)).
  { split; [auto|]. split; [reflexivity|]. split; [|apply created_close].
    unfold close; simpl. apply length_insert. }
  destruct (sessions (close pc p w) !! session_id); intros [= <- _]; [|exact Hclose].
  destruct Hclose as (_ & Hr & Hp & Hc).
  split; [|auto]. intros sid x. unfold set_sessions; simpl.
  intros H. apply lookup_delete_Some in H. apply H.
Qed.

Lemma on_message_makes_no_session (track : nat) (message : string)
    (w w' : World) (r : result unit) :
  on_message track message w = Some (w', r) -> makes_no_session w w'.
Proof.
  unfold on_message. intros H.
  repeat (case_match; simplify_eq/=); try apply makes_no_session_refl.
  unfold makes_no_session, created; simpl. rewrite length_insert. auto.
Qed.

Lemma created_insert (track : nat) (t t' : FrameProducer) (l : list FrameProducer) :
  l !! track = Some t -> session t' = session t ->
  map session (<[track := t']> l) = map session l.
Proof.
  intros Hl Hs. change (session <$> <[track := t']> l = session <$> l).
  rewrite list_fmap_insert, Hs. apply list_insert_id.
  rewrite list_lookup_fmap, Hl. reflexivity.
Qed.

Lemma recv_makes_no_session (fuel track : nat) (w w' : World) (r : result VideoFrame) :
  recv fuel track w = Some (w', r) -> makes_no_session w w'.
Proof.
  unfold recv. destruct (tracks w !! track) as [t|] eqn:Ht; [|discriminate].
  destruct (renderers w !! renderer (session t)) as [rd|]; [|discriminate].
  destruct (next_timestamp (clock t)) as [clock' [[pts tb]|e]].
  - destruct (recv_loop fuel _) as [st|st]; [|discriminate].
    intros [= <- _]. unfold makes_no_session, created; simpl.
    rewrite length_insert, (created_insert _ _ _ _ Ht) by reflexivity. auto.
  - intros [= <- _]. unfold makes_no_session, created; simpl.
    rewrite (created_insert _ _ _ _ Ht) by reflexivity. auto.
Qed.

Lemma transport_makes_no_session (pc : nat) (p : PeerConnection)
    (w w' : World) (r : result unit) :
  transport pc p w = Some (w', r) -> makes_no_session w w'.
Proof.
  unfold transport. destruct (peer_connections w !! pc); [|discriminate].
  intros [= <- _]. unfold makes_no_session, set_peer_connection, created; simpl.
  rewrite length_insert. auto.
Qed.

(** An offer makes one session, with the next free handle of each heap. *)
Lemma create_offer_invariant (offer : Offer) (session_id : string)
    (w w' : World) (r : result Offer) :
  invariant w -> create_offer offer session_id w = Some (w', r) -> invariant w'.
Proof.
  intros (Hreg & Halloc & Huniq) Hrun.
  destruct (create_offer_spec offer session_id w) as (w2 & r2 & p & Hrun2 & Hs & Hr & Hp & Ht & _).
  rewrite Hrun in Hrun2. injection Hrun2 as <- <-.
  set (s := mkSession session_id (length (renderers w)) (length (peer_connections w))) in *.
  assert (Hc : created w' = created w ++ [s]).
  { unfold created. rewrite Ht, map_app. reflexivity. }
  unfold invariant, registry_sound, handles_allocated, handles_unshared.
  rewrite Hc, Hs, Hr, Hp, !length_app. simpl. split; [|split].
  - intros sid x H. destruct (decide (session_id = sid)) as [<-|Hne].
    + rewrite lookup_insert_eq in H. injection H as <-. split; [reflexivity|].
      apply elem_of_app. right. apply list_elem_of_singleton. reflexivity.
    + rewrite lookup_insert_ne in H by exact Hne.
      destruct (Hreg _ _ H) as [Hid Hin]. split; [exact Hid|].
      apply elem_of_app. left. exact Hin.
  - intros x Hin. apply elem_of_app in Hin. destruct Hin as [Hin|Hin].
    + destruct (Halloc _ Hin). lia.
    + apply list_elem_of_singleton in Hin. subst x. simpl. lia.
  - assert (Hfresh : forall k x, created w !! k = Some x -> ~ shares_handle x s
                                 /\ ~ shares_handle s x).
    { intros k x Hk. destruct (Halloc x) as [Ha Hb]; [eapply list_elem_of_lookup_2; eauto|].
      unfold shares_handle; simpl. lia. }
    intros i j s1 s2 Hi Hj Hsh.
    pose proof (lookup_lt_Some _ _ _ Hi) as Hli. pose proof (lookup_lt_Some _ _ _ Hj) as Hlj.
    rewrite length_app in Hli, Hlj. simpl in Hli, Hlj.
    destruct (decide (i < length (created w))) as [Hi'|Hi'];
      destruct (decide (j < length (created w))) as [Hj'|Hj'].
    + rewrite lookup_app_l in Hi, Hj by assumption. eapply Huniq; eauto.
    + rewrite lookup_app_l in Hi by assumption.
      rewrite lookup_app_r in Hj by lia.
      assert (j - length (created w) = 0) as Hz by lia. rewrite Hz in Hj.
      injection Hj as <-. destruct (Hfresh _ _ Hi) as [Hn _]. contradiction.
    + rewrite lookup_app_l in Hj by assumption.
      rewrite lookup_app_r in Hi by lia.
      assert (i - length (created w) = 0) as Hz by lia. rewrite Hz in Hi.
      injection Hi as <-. destruct (Hfresh _ _ Hj) as [_ Hn]. contradiction.
    + lia.
Qed.

Lemma step_invariant (w w' : World) : invariant w -> step w w' -> invariant w'.
Proof.
  intros Hinv Hstep. destruct Hstep.
  - eapply create_offer_invariant; eauto.
  - eapply invariant_makes_no_session; eauto using add_ice_candidate_makes_no_session.
  - eapply invariant_makes_no_session; eauto using on_connectionstatechange_makes_no_session.
  - eapply invariant_makes_no_session; eauto using on_message_makes_no_session.
  - eapply invariant_makes_no_session; eauto using recv_makes_no_session.
  - eapply invariant_makes_no_session; eauto using transport_makes_no_session.
Qed.

Lemma reachable_invariant (w : World) : reachable w -> invariant w.
Proof.
  induction 1 as [|w w' _ IH Hstep]; [apply invariant_empty|].
  eapply step_invariant; eauto.
Qed.

(** C9, as amended. In every reachable world: the registry holds at most
    one session per identifier, stored under its own identifier and one of
    the sessions the offers made (a session replaced by a later offer for
    its identifier is no longer in the registry, though its track and its
    connection live on); no two registry entries, and no two of all the
    sessions made so far, registered or replaced, share a renderer handle
    or a peer-connection handle; and the session a further [create_offer]
    makes holds a renderer handle and a peer-connection handle that were
    not allocated before the call, the renderer being a new one. Every
    event of the server (an offer, a candidate, a control message, a
    connection-state change, a pull, a move of the transport) keeps
    this. *)
Theorem sessions_never_share_handles (w : World) :
  reachable w ->
  (forall sid s1 s2, sessions w !! sid = Some s1 -> sessions w !! sid = Some s2 -> s1 = s2) /\
  (forall sid s, sessions w !! sid = Some s -> session_id s = sid /\ s ∈ created w) /\
  (forall sid1 sid2 s1 s2,
      sessions w !! sid1 = Some s1 -> sessions w !! sid2 = Some s2 ->
      shares_handle s1 s2 -> sid1 = sid2 /\ s1 = s2) /\
  (forall i j s1 s2,
      created w !! i = Some s1 -> created w !! j = Some s2 ->
      shares_handle s1 s2 -> i = j) /\
  (forall offer session_id w' r,
      create_offer offer session_id w = Some (w', r) ->
      exists s, sessions w' !! session_id = Some s /\
                renderers w !! renderer s = None /\
                peer_connections w !! pc s = None /\
                renderers w' !! renderer s = Some Renderer_new /\
                is_Some (peer_connections w' !! pc s)) /\
  (forall w', step w w' -> invariant w').
Proof.
  intros Hreach. pose proof (reachable_invariant w Hreach) as Hinv.
  destruct Hinv as (Hreg & Halloc & Huniq).
  split; [intros sid s1 s2 H1 H2; congruence|].
  split; [intros sid s H; apply (Hreg _ _ H)|].
  split.
  { intros sid1 sid2 s1 s2 H1 H2 Hsh.
    destruct (Hreg _ _ H1) as [Hid1 Hin1]. destruct (Hreg _ _ H2) as [Hid2 Hin2].
    apply list_elem_of_lookup in Hin1, Hin2.
    destruct Hin1 as [i Hi]. destruct Hin2 as [j Hj].
    assert (i = j) by (eapply Huniq; eauto). subst j.
    rewrite Hi in Hj. injection Hj as <-. split; [congruence | reflexivity]. }
  split; [exact Huniq|].
  split.
  { intros offer session_id w' r Hrun.
    destruct (create_offer_spec offer session_id w) as (w2 & r2 & p & Hrun2 & Hs & Hr & Hp & _).
    rewrite Hrun in Hrun2. injection Hrun2 as <- <-.
    eexists. split; [rewrite Hs; apply lookup_insert_eq|]. simpl.
    split; [apply lookup_ge_None_2; lia|].
    split; [apply lookup_ge_None_2; lia|].
    rewrite Hr, Hp. split; [apply list_lookup_middle; reflexivity|].
    exists p. apply list_lookup_middle. reflexivity. }
  intros w' Hstep. eapply step_invariant; [|exact Hstep].
  split; [exact Hreg|]. split; [exact Halloc | exact Huniq].
Qed.

End InvariantFacts.

(** ** Runs on the stub collaborators *)

(** C1. With a renderer that has no data (every [render()] returns [None])
    the loop of [recv] never counts a failure and never ends: after any
    number of passes it is still running, has called [render()] that many
    times, more than ten included, and [failed_attempts] is still 0; the
    pull has no result. The same holds when every [render()] returns an
    empty buffer. *)
Theorem recv_spins_when_renderer_has_no_data (fuel : nat) :
  (exists st,
      recv_loop (C := stub renders_nothing false) fuel
        (loop_start Renderer_new (CodecContext_create Renderer_new)) = Running st /\
      render_calls st = fuel /\ failed_attempts st = 0) /\
  (exists st,
      recv_loop (C := stub renders_empty false) fuel
        (loop_start Renderer_new (CodecContext_create Renderer_new)) = Running st /\
      render_calls st = fuel /\ failed_attempts st = 0) /\
  recv (C := stub renders_nothing false) fuel 0 one_session = None /\
  recv (C := stub renders_empty false) fuel 0 one_session = None.
Proof.
  destruct (recv_loop_spins (C := stub renders_nothing false) fuel
              (loop_start Renderer_new (CodecContext_create Renderer_new)))
    as (st1 & Hrun1 & Hc1 & Hf1); [intros r; left; reflexivity|].
  destruct (recv_loop_spins (C := stub renders_empty false) fuel
              (loop_start Renderer_new (CodecContext_create Renderer_new)))
    as (st2 & Hrun2 & Hc2 & Hf2); [intros r; right; reflexivity|].
  split; [exists st1; auto|]. split; [exists st2; auto|]. split.
  - eapply (recv_running (C := stub renders_nothing false)); [reflexivity .. | exact Hrun1].
  - eapply (recv_running (C := stub renders_empty false)); [reflexivity .. | exact Hrun2].
Qed.

(** C3. When the counter reaches ten the pull does not return: with a
    renderer that always raises, [frame] was never assigned and the
    statement after the loop raises [UnboundLocalError]; with buffers the
    codec makes no frame of, [frame] is [None] and it raises
    [AttributeError]. Ten [render()] calls were made and the registry still
    holds the session. A pull on the same session with a renderer that
    works returns a frame. *)
Theorem recv_raises_after_ten_failures :
  outcome (recv (C := stub render_raises false) 10 0 one_session)
  = Some (Raise (UnboundLocalError "frame")) /\
  outcome (recv (C := stub renders_undecodable false) 10 0 one_session)
  = Some (Raise (AttributeError "pts")) /\
  (exists st,
      recv_loop (C := stub renders_undecodable false) 10
        (loop_start Renderer_new (CodecContext_create Renderer_new)) = Finished st /\
      render_calls st = 10 /\ failed_attempts st = 10 /\ frame st = Bound None) /\
  sessions (world_after one_session
              (recv (C := stub renders_undecodable false) 10 0 one_session)) !! "s"
  = Some (mkSession "s" 0 0) /\
  outcome (recv (C := stub renders_picture false) 10 0 one_session)
  = Some (Ok (mkVideoFrame (stub renders_picture false)
                [Byte.x01; Byte.x02] (Some 0%Z) (Some (1%Z, 90000%Z)))).
Proof.
  split; [vm_compute; reflexivity|]. split; [vm_compute; reflexivity|].
  split; [eexists; split; [vm_compute; reflexivity|]; repeat split|].
  split; vm_compute; reflexivity.
Qed.

(** C2, counterexample. The session ["s"] is registered; a second offer for
    ["s"] is answered, and the registry entry of ["s"] is now another
    session, with another renderer and another peer connection. *)
Lemma duplicate_offer_replaces_the_session :
  sessions (one_session (C := stub renders_picture false)) !! "s" = Some (mkSession "s" 0 0) /\
  outcome (create_offer (C := stub renders_picture false) an_offer "s" one_session)
  = Some (Ok (mkOffer "v=0" "answer")) /\
  sessions (world_after one_session
              (create_offer (C := stub renders_picture false) an_offer "s" one_session)) !! "s"
  = Some (mkSession "s" 1 1).
Proof. repeat split; vm_compute; reflexivity. Qed.

(** C5, counterexample. A candidate for an identifier that was never
    registered: the handler raises [KeyError], which is not a 404 answer
    but an exception that leaves the application. *)
Lemma unknown_session_is_an_uncontained_KeyError :
  option_map respond
    (outcome (add_ice_candidate (C := stub renders_picture false) a_candidate "ghost" World_empty))
  = Some (Uncontained (KeyError "ghost")) /\
  option_map respond
    (outcome (add_ice_candidate (C := stub renders_picture false) a_candidate "ghost" World_empty))
  <> Some (ErrorStatus 404).
Proof. split; [vm_compute; reflexivity | vm_compute; discriminate]. Qed.

Lemma add_ice_candidate_unknown_session_witness :
  sessions (World_empty (C := stub renders_picture false)) !! "ghost" = None /\
  add_ice_candidate (C := stub renders_picture false) a_candidate "ghost" World_empty
  = Some (World_empty, Raise (KeyError "ghost")).
Proof.
  split; [reflexivity|].
  apply (add_ice_candidate_unknown_session_raises_KeyError
           (C := stub renders_picture false) a_candidate "ghost" World_empty).
  reflexivity.
Defined.

(** C4, counterexample. The connection of session ["s"] has failed and the
    callback has run: the connection is closed and ["s"] is no longer in
    the registry. The sender had never started, so closing did not end the
    track, and a pull on it returns a frame. *)
Lemma pull_after_teardown_returns_a_frame :
  let C := stub renders_picture false in
  let w := failed_connection C (mkStubPeerConnection "failed" [0] []) in
  let w' := world_after w (on_connectionstatechange 0 "s" w) in
  sessions w !! "s" = Some (mkSession "s" 0 0) /\
  outcome (on_connectionstatechange 0 "s" w) = Some (Ok tt) /\
  option_map connectionState (peer_connections w' !! 0) = Some "closed" /\
  sessions w' !! "s" = None /\
  outcome (recv 10 0 w')
  = Some (Ok (mkVideoFrame C [Byte.x01; Byte.x02] (Some 0%Z) (Some (1%Z, 90000%Z)))).
Proof. repeat split; vm_compute; reflexivity. Qed.

(** Where closing does end the track, the pull raises at [next_timestamp]. *)
Lemma pull_after_teardown_raises_if_track_ended :
  let C := stub renders_picture true in
  let w := failed_connection C (mkStubPeerConnection "failed" [0] []) in
  let w' := world_after w (on_connectionstatechange 0 "s" w) in
  outcome (recv 10 0 w') = Some (Raise (LibraryError 2)).
Proof. vm_compute; reflexivity. Qed.

Lemma teardown_witness :
  let C := stub renders_picture false in
  let w := failed_connection C (mkStubPeerConnection "failed" [0] []) in
  peer_connections w !! 0 = Some (mkStubPeerConnection "failed" [0] []) /\
  connectionState (mkStubPeerConnection "failed" [0] []) = "failed" /\
  exists w' r,
    on_connectionstatechange 0 "s" w = Some (w', r) /\
    peer_connections w' !! 0 = Some (pc_close (mkStubPeerConnection "failed" [0] [])) /\
    sessions w' !! "s" = None.
Proof.
  intros C w. split; [reflexivity|]. split; [reflexivity|].
  destruct (teardown_closes_and_removes_but_recv_ignores_it
              (C := C) 0 "s" w (mkStubPeerConnection "failed" [0] []) eq_refl eq_refl)
    as (w' & r & Hrun & Hp & Hs & _).
  exists w', r. auto.
Defined.

(** ** The candidate pattern *)

Section PatternFacts.
Context `{C : Collaborators}.

Local Open Scope string_scope.
#[local] Arguments String.append !_ _ : simpl nomatch.

Lemma str_app_assoc (a b c : string) : (a ++ b) ++ c = a ++ (b ++ c).
Proof. induction a as [|x a IH]; simpl; [reflexivity | rewrite IH; reflexivity]. Qed.

Lemma str_app_empty (a : string) : a ++ "" = a.
Proof. induction a as [|x a IH]; simpl; [reflexivity | rewrite IH; reflexivity]. Qed.

Lemma strip_prefix_app (lit s : string) : strip_prefix lit (lit ++ s) = Some s.
Proof.
  induction lit as [|c lit IH]; simpl; [reflexivity|].
  rewrite Ascii.eqb_refl. exact IH.
Qed.

Lemma strip_prefix_Some (lit s s' : string) :
  strip_prefix lit s = Some s' -> s = lit ++ s'.
Proof.
  revert s. induction lit as [|c lit IH]; intros s; simpl.
  - intros [= ->]. reflexivity.
  - destruct s as [|d s]; [discriminate|].
    destruct (Ascii.eqb_spec c d) as [->|]; [|discriminate].
    intros H. rewrite (IH _ H). reflexivity.
Qed.

Lemma str_take_drop (k : nat) (s : string) : str_take k s ++ str_drop k s = s.
Proof.
  revert s. induction k as [|k IH]; intros [|c s]; simpl; try reflexivity.
  rewrite IH. reflexivity.
Qed.

Lemma str_take_app (g s : string) : str_take (String.length g) (g ++ s) = g.
Proof. induction g as [|c g IH]; simpl; [destruct s|rewrite IH]; reflexivity. Qed.

Lemma str_drop_app (g s : string) : str_drop (String.length g) (g ++ s) = s.
Proof. induction g as [|c g IH]; simpl; [destruct s; reflexivity | exact IH]. Qed.

Lemma token_all (cls : ascii -> bool) (g : string) :
  token cls g = true <-> g <> "" /\ str_all cls g = true.
Proof.
  destruct g as [|c g]; simpl; split.
  - discriminate.
  - intros [H _]. contradiction.
  - intros H. split; [discriminate | exact H].
  - intros [_ H]. exact H.
Qed.

Lemma token_length (cls : ascii -> bool) (g : string) :
  token cls g = true -> 0 < String.length g.
Proof. destruct g; simpl; [discriminate | lia]. Qed.

(** A run ends where the class stops. *)
Lemma run_length_app (cls : ascii -> bool) (g s : string) :
  str_all cls g = true -> stops cls s = true ->
  run_length cls (g ++ s) = String.length g.
Proof.
  intros Hg Hs. induction g as [|c g IH]; simpl in *.
  - destruct s as [|d s]; simpl in *; [reflexivity|].
    destruct (cls d); [discriminate | reflexivity].
  - apply andb_true_iff in Hg. destruct Hg as [-> Hg]. rewrite IH by exact Hg. reflexivity.
Qed.

Lemma run_length_app_ge (cls : ascii -> bool) (g s : string) :
  str_all cls g = true -> String.length g <= run_length cls (g ++ s).
Proof.
  intros Hg. induction g as [|c g IH]; simpl in *; [lia|].
  apply andb_true_iff in Hg. destruct Hg as [-> Hg]. specialize (IH Hg). lia.
Qed.

(** Any prefix of a run is in the class. *)
Lemma str_take_run (cls : ascii -> bool) (k : nat) (s : string) :
  k <= run_length cls s ->
  str_all cls (str_take k s) = true /\ String.length (str_take k s) = k.
Proof.
  revert s. induction k as [|k IH]; intros s Hk.
  - destruct s; simpl; auto.
  - destruct s as [|c s]; simpl in *; [lia|].
    destruct (cls c) eqn:Hc; [|lia].
    destruct (IH s) as [Ha Hl]; [lia|]. rewrite Ha, Hl. auto.
Qed.

(** The longest run is tried first. *)
Lemma backtrack_first (k : nat) (s : string) (rest : string -> option (list string))
    (groups : list string) :
  0 < k -> rest (str_drop k s) = Some groups ->
  backtrack k s rest = Some (str_take k s :: groups).
Proof. destruct k; [lia|]. intros _ H. simpl in *. rewrite H. reflexivity. Qed.

(** What a successful group holds. *)
Lemma backtrack_Some (k : nat) (s : string) (rest : string -> option (list string))
    (groups : list string) :
  backtrack k s rest = Some groups ->
  exists j groups', 0 < j <= k /\ groups = str_take j s :: groups' /\
                    rest (str_drop j s) = Some groups'.
Proof.
  induction k as [|k IH]; [discriminate|].
  change (backtrack (S k) s rest)
    with (match rest (str_drop (S k) s) with
          | Some groups => Some (str_take (S k) s :: groups)
          | None => backtrack k s rest
          end).
  destruct (rest (str_drop (S k) s)) as [gs|] eqn:Hr.
  - intros [= <-]. exists (S k), gs. split; [lia|]. auto.
  - intros H. destruct (IH H) as (j & gs & Hj & Hg & Hrest).
    exists j, gs. split; [lia|]. auto.
Qed.

(** Giving back characters finds any length that works. *)
Lemma backtrack_complete (k j : nat) (s : string) (rest : string -> option (list string)) :
  0 < j <= k -> is_Some (rest (str_drop j s)) -> is_Some (backtrack k s rest).
Proof.
  intros Hj Hr. induction k as [|k IH]; [lia|].
  change (backtrack (S k) s rest)
    with (match rest (str_drop (S k) s) with
          | Some groups => Some (str_take (S k) s :: groups)
          | None => backtrack k s rest
          end).
  destruct (rest (str_drop (S k) s)) as [gs|] eqn:Hk; [eauto|].
  apply IH. destruct (decide (j = S k)) as [->|]; [|lia].
  rewrite Hk in Hr. destruct Hr as [x Hx]. discriminate.
Qed.

(** Whatever [re_match] returns is a match. *)
Lemma re_match_sound (items : list item) (s : string) (groups : list string) :
  re_match items s = Some groups -> exists rest, matches items s groups rest.
Proof.
  revert s groups. induction items as [|[lit|cls] items IH]; intros s groups; simpl.
  - intros [= <-]. exists s. constructor.
  - destruct (strip_prefix lit s) as [s'|] eqn:Hp; [|discriminate].
    intros H. destruct (IH _ _ H) as [rest Hm]. exists rest.
    rewrite (strip_prefix_Some _ _ _ Hp). constructor. exact Hm.
  - intros H. apply backtrack_Some in H.
    destruct H as (j & gs & Hj & -> & Hrest).
    destruct (IH _ _ Hrest) as [rest Hm]. exists rest.
    destruct (str_take_run cls j s) as [Ha Hl]; [lia|].
    rewrite <- (str_take_drop j s) at 1. constructor; [|exact Hm].
    apply token_all. split; [|exact Ha].
    intros He. rewrite He in Hl. simpl in Hl. lia.
Qed.

(** Whatever has a match, [re_match] finds one. *)
Lemma re_match_complete (items : list item) (s : string) (groups : list string)
    (rest : string) :
  matches items s groups rest -> is_Some (re_match items s).
Proof.
  induction 1 as [s | lit items s groups rest _ IH | cls items g s groups rest Hg _ IH]; simpl.
  - eauto.
  - rewrite strip_prefix_app. exact IH.
  - apply token_all in Hg. destruct Hg as [Hne Ha].
    apply (backtrack_complete _ (String.length g)).
    + split; [destruct g; [contradiction | simpl; lia]|].
      apply run_length_app_ge. exact Ha.
    + rewrite str_drop_app. exact IH.
Qed.

(** Where each group is followed by a character outside its class, the
    groups are what stands between the literals. *)
Lemma re_match_lit (lit : string) (items : list item) (s : string) (groups : list string) :
  re_match items s = Some groups -> re_match (Lit lit :: items) (lit ++ s) = Some groups.
Proof. intros H. simpl. rewrite strip_prefix_app. exact H. Qed.

Lemma re_match_group (cls : ascii -> bool) (items : list item) (g s : string)
    (groups : list string) :
  token cls g = true -> stops cls s = true ->
  re_match items s = Some groups ->
  re_match (Group cls :: items) (g ++ s) = Some (g :: groups).
Proof.
  intros Hg Hs H. pose proof (token_length _ _ Hg) as Hl.
  apply token_all in Hg. destruct Hg as [_ Ha]. simpl.
  rewrite run_length_app by assumption.
  rewrite (backtrack_first _ _ _ groups); [rewrite str_take_app; reflexivity | exact Hl |].
  rewrite str_drop_app. exact H.
Qed.

(** [int] on a string of decimal digits is its positional value. *)
Lemma int_digits_value (s : string) (acc : N) :
  str_all is_digit s = true ->
  int_digits acc s = Ok (acc * 10 ^ N.of_nat (String.length s) + decimal_value s)%N.
Proof.
  revert acc. induction s as [|c s IH]; intros acc Hs; simpl in *.
  - f_equal. lia.
  - apply andb_true_iff in Hs. destruct Hs as [Hc Hs]. rewrite Hc, IH by exact Hs.
    f_equal. rewrite Nat2N.inj_succ, N.pow_succ_r'. lia.
Qed.

Lemma int_token (s : string) :
  token is_digit s = true -> convertible s -> int s = Ok (decimal_value s).
Proof.
  intros H Hlen. apply token_all in H. destruct H as [Hne Ha].
  unfold int. destruct s as [|c s]; [contradiction|].
  assert (Hlim : ((0 <? max_str_digits) && (max_str_digits <? String.length (String c s))
                  = false)%nat).
  { apply andb_false_iff. destruct Hlen as [->|Hle]; [left; reflexivity|].
    right. apply Nat.ltb_ge. exact Hle. }
  rewrite Hlim, int_digits_value by exact Ha. f_equal.
Qed.

Lemma int_over_limit (s : string) :
  0 < max_str_digits < String.length s -> int s = Raise ValueError.
Proof.
  intros [Hpos Hlt]. unfold int. destruct s as [|c s]; [reflexivity|].
  destruct (Nat.ltb_spec 0 max_str_digits); [|lia].
  destruct (Nat.ltb_spec max_str_digits (String.length (String c s))); [|lia].
  reflexivity.
Qed.

Lemma str_length_app (a b : string) :
  String.length (a ++ b) = String.length a + String.length b.
Proof. induction a as [|x a IH]; simpl; [reflexivity | rewrite IH; reflexivity]. Qed.

Lemma decimal_value_snoc (s : string) (c : ascii) :
  decimal_value (s ++ String c "") = (10 * decimal_value s + digit_value c)%N.
Proof.
  induction s as [|d s IH]; simpl; [lia|].
  rewrite IH. replace (String.length (s ++ String c "")) with (S (String.length s)).
  - rewrite Nat2N.inj_succ, N.pow_succ_r'. lia.
  - clear IH. induction s as [|e s IH]; simpl; [reflexivity | rewrite <- IH; reflexivity].
Qed.

(** The pattern, read as a description of lines. *)
Lemma matches_pattern (s : string) (groups : list string) (rest : string) :
  matches pattern s groups rest <->
  exists foundation component protocol priority ip port typ,
    groups = [foundation; component; protocol; priority; ip; port; typ] /\
    token is_digit foundation = true /\ token is_digit component = true /\
    token is_word protocol = true /\ token is_digit priority = true /\
    token is_nonspace ip = true /\ token is_digit port = true /\
    token is_word typ = true /\
    s = candidate_line foundation component protocol priority ip port typ ++ rest.
Proof.
  split.
  - unfold pattern. intros H.
    repeat match goal with
           | H : matches (_ :: _) _ _ _ |- _ => inversion H; subst; clear H
           | H : matches [] _ _ _ |- _ => inversion H; subst; clear H
           end.
    eexists _, _, _, _, _, _, _. split; [reflexivity|].
    repeat (split; [assumption|]).
    unfold candidate_line. rewrite !str_app_assoc. reflexivity.
  - intros (f & c & p & q & ip & port & typ & -> & Hf & Hc & Hp & Hq & Hip & Hport & Htyp & ->).
    unfold candidate_line, pattern. rewrite !str_app_assoc.
    repeat (first [apply matches_lit | apply matches_group; [assumption|]]).
    apply matches_nil.
Qed.

(** On a line of the grammar followed by nothing, or by a character that
    is not a word character, the groups are the fields. *)
Lemma re_match_candidate_line (foundation component protocol priority ip port typ rest : string) :
  token is_digit foundation = true -> token is_digit component = true ->
  token is_word protocol = true -> token is_digit priority = true ->
  token is_nonspace ip = true -> token is_digit port = true ->
  token is_word typ = true -> stops is_word rest = true ->
  re_match pattern
    (candidate_line foundation component protocol priority ip port typ ++ rest)
  = Some [foundation; component; protocol; priority; ip; port; typ].
Proof.
  intros Hf Hc Hp Hq Hip Hport Htyp Hrest.
  unfold candidate_line, pattern. rewrite !str_app_assoc.
  repeat (first [apply re_match_lit
                | apply re_match_group; [assumption | first [assumption | reflexivity] |]]).
  reflexivity.
Qed.

Lemma is_alnum_word (c : ascii) : is_alnum c = true -> is_word c = true.
Proof.
  unfold is_alnum, is_word. intros H. apply orb_true_iff in H.
  destruct H as [-> | ->]; simpl; [reflexivity | rewrite orb_true_r; reflexivity].
Qed.

Lemma token_alnum_word (s : string) : token is_alnum s = true -> token is_word s = true.
Proof.
  intros H. apply token_all in H. destruct H as [Hne Ha]. apply token_all.
  split; [exact Hne|]. clear Hne. induction s as [|c s IH]; simpl in *; [reflexivity|].
  apply andb_true_iff in Ha. destruct Ha as [Hc Ha].
  rewrite (is_alnum_word _ Hc), IH by exact Ha. reflexivity.
Qed.

Lemma grammar_line_pattern_prefix (s : string) : grammar_line s -> pattern_prefix s.
Proof.
  intros (f & c & p & q & ip & port & typ & Hf & Hc & Hp & Hq & Hip & Hport & Htyp & ->).
  exists f, c, p, q, ip, port, typ, "".
  rewrite str_app_empty. auto 10 using token_alnum_word.
Qed.

(** Counting spaces: a token of the grammar has none, a line of the
    grammar has seven. *)
Lemma count_char_app (c : ascii) (a b : string) :
  count_char c (a ++ b) = count_char c a + count_char c b.
Proof. induction a as [|x a IH]; simpl; [reflexivity | rewrite IH; lia]. Qed.

Lemma count_space_token (cls : ascii -> bool) (s : string) :
  cls " "%char = false -> token cls s = true -> count_char " " s = 0.
Proof.
  intros Hcls H. apply token_all in H. destruct H as [_ Ha].
  induction s as [|c s IH]; [reflexivity|].
  change (str_all cls (String c s)) with (cls c && str_all cls s) in Ha.
  change (count_char " " (String c s))
    with ((if Ascii.eqb " " c then 1 else 0) + count_char " " s).
  apply andb_true_iff in Ha. destruct Ha as [Hc Ha]. rewrite IH by exact Ha.
  destruct (Ascii.eqb_spec " " c) as [<-|]; [congruence | reflexivity].
Qed.

Lemma grammar_line_spaces (s : string) : grammar_line s -> count_char " " s = 7.
Proof.
  intros (f & c & p & q & ip & port & typ & Hf & Hc & Hp & Hq & Hip & Hport & Htyp & ->).
  unfold candidate_line. rewrite !count_char_app.
  rewrite (count_space_token is_digit f), (count_space_token is_digit c),
    (count_space_token is_alnum p), (count_space_token is_digit q),
    (count_space_token is_nonspace ip), (count_space_token is_digit port),
    (count_space_token is_alnum typ) by (assumption || reflexivity).
  reflexivity.
Qed.

Lemma convertible_part (g s : string) :
  String.length g <= String.length s -> convertible s -> convertible g.
Proof. unfold convertible. intros Hle [H|H]; [left; exact H | right; lia]. Qed.

(** The integer fields of a line are no longer than the line. *)
Lemma candidate_line_lengths (foundation component protocol priority ip port typ rest : string) :
  let line := candidate_line foundation component protocol priority ip port typ ++ rest in
  String.length component <= String.length line /\
  String.length priority <= String.length line /\
  String.length port <= String.length line.
Proof.
  unfold candidate_line. rewrite !str_length_app. simpl. lia.
Qed.

(** A line with a matching prefix is never answered with "no match". *)
Lemma parse_candidate_of_match (c : IceCandidate) (groups : list string) :
  re_match pattern (candidate c) = Some groups ->
  parse_candidate c <> Ok None /\
  (convertible (candidate c) -> exists r, parse_candidate c = Ok (Some r)).
Proof.
  intros Hm. destruct (re_match_sound _ _ _ Hm) as [rest Hmatch].
  apply matches_pattern in Hmatch.
  destruct Hmatch as (f & cm & p & q & ip & port & typ & -> & Hf & Hc & Hp & Hq & _ & Hport & _ & Hs).
  unfold parse_candidate. rewrite Hm. split.
  - destruct (int cm); [|discriminate]. destruct (int port); [|discriminate].
    destruct (int q); discriminate.
  - intros Hlen. destruct (candidate_line_lengths f cm p q ip port typ rest) as (L1 & L2 & L3).
    rewrite <- Hs in L1, L2, L3.
    rewrite (int_token _ Hc), (int_token _ Hport), (int_token _ Hq)
      by eauto using convertible_part.
    eauto.
Qed.

(** C6, as amended. [parse_candidate] finds no match exactly on the lines
    no prefix of which has the form [candidate:<foundation> <component>
    <protocol> <priority> <ip> <port> typ <type>] (foundation, component,
    priority and port decimal digits; protocol and type word characters,
    the underscore included; ip without white space); so text after the
    type is accepted. On a line no longer than the interpreter's limit for
    [int] it never raises, and if the line has that form followed by
    nothing, or by a character that is not a word character, it returns
    every field as it stands in the line, component, port and priority as
    the decimal values of their digits. *)
Theorem parse_candidate_matches_prefix (c : IceCandidate) :
  (parse_candidate c = Ok None <-> ~ pattern_prefix (candidate c)) /\
  (convertible (candidate c) ->
   (forall e, parse_candidate c <> Raise e) /\
   (forall foundation component protocol priority ip port typ rest,
       token is_digit foundation = true -> token is_digit component = true ->
       token is_word protocol = true -> token is_digit priority = true ->
       token is_nonspace ip = true -> token is_digit port = true ->
       token is_word typ = true -> stops is_word rest = true ->
       candidate c
       = candidate_line foundation component protocol priority ip port typ ++ rest ->
       parse_candidate c
       = Ok (Some (mkRTCIceCandidate (decimal_value component) foundation ip
                     (decimal_value port) (decimal_value priority) protocol typ
                     (sdpMid c) (sdpMLineIndex c))))).
Proof.
  split.
  - split.
    + intros Hnone (f & cm & p & q & ip & port & typ & rest & Hf & Hc & Hp & Hq & Hip & Hport & Htyp & Hs).
      assert (Hm : matches pattern (candidate c) [f; cm; p; q; ip; port; typ] rest).
      { apply matches_pattern. exists f, cm, p, q, ip, port, typ. auto 10. }
      apply re_match_complete in Hm. destruct Hm as [groups Hm].
      destruct (parse_candidate_of_match _ _ Hm) as [Hne _]. contradiction.
    + intros Hno. destruct (re_match pattern (candidate c)) as [groups|] eqn:Hm.
      * exfalso. apply Hno. destruct (re_match_sound _ _ _ Hm) as [rest Hmatch].
        apply matches_pattern in Hmatch.
        destruct Hmatch as (f & cm & p & q & ip & port & typ & _ & H).
        exists f, cm, p, q, ip, port, typ, rest. exact H.
      * unfold parse_candidate. rewrite Hm. reflexivity.
  - intros Hlen. split.
    + intros e He. destruct (re_match pattern (candidate c)) as [groups|] eqn:Hm.
      * destruct (parse_candidate_of_match _ _ Hm) as [_ Hr].
        destruct (Hr Hlen) as [r Hr']. congruence.
      * unfold parse_candidate in He. rewrite Hm in He. discriminate.
    + intros f cm p q ip port typ rest Hf Hc Hp Hq Hip Hport Htyp Hrest Hs.
      destruct (candidate_line_lengths f cm p q ip port typ rest) as (L1 & L2 & L3).
      rewrite <- Hs in L1, L2, L3.
      unfold parse_candidate.
      rewrite Hs, (re_match_candidate_line f cm p q ip port typ rest) by assumption.
      rewrite (int_token _ Hc), (int_token _ Hport), (int_token _ Hq)
        by eauto using convertible_part.
      reflexivity.
Qed.

(** Every line of the specification's grammar, if no longer than the
    limit, is parsed field by field. *)
Lemma parse_candidate_grammar_line
    (foundation component protocol priority ip port typ mid ufrag : string) (index : Z) :
  token is_digit foundation = true -> token is_digit component = true ->
  token is_alnum protocol = true -> token is_digit priority = true ->
  token is_nonspace ip = true -> token is_digit port = true ->
  token is_alnum typ = true ->
  convertible (candidate_line foundation component protocol priority ip port typ) ->
  parse_candidate
    (mkIceCandidate (candidate_line foundation component protocol priority ip port typ)
       index mid ufrag)
  = Ok (Some (mkRTCIceCandidate (decimal_value component) foundation ip
                (decimal_value port) (decimal_value priority) protocol typ mid index)).
Proof.
  intros Hf Hc Hp Hq Hip Hport Htyp Hlen.
  destruct (candidate_line_lengths foundation component protocol priority ip port typ "")
    as (L1 & L2 & L3).
  rewrite str_app_empty in L1, L2, L3.
  unfold parse_candidate. simpl candidate.
  rewrite <- (str_app_empty (candidate_line _ _ _ _ _ _ _)).
  rewrite (re_match_candidate_line foundation component protocol priority ip port typ "")
    by auto using token_alnum_word.
  rewrite (int_token _ Hc), (int_token _ Hport), (int_token _ Hq)
    by eauto using convertible_part.
  reflexivity.
Qed.

(** A matching line whose component has more digits than the limit makes
    [int] raise. *)
Lemma parse_candidate_over_limit (foundation component protocol priority ip port typ rest : string)
    (c : IceCandidate) :
  token is_digit foundation = true -> token is_digit component = true ->
  token is_word protocol = true -> token is_digit priority = true ->
  token is_nonspace ip = true -> token is_digit port = true ->
  token is_word typ = true -> stops is_word rest = true ->
  candidate c = candidate_line foundation component protocol priority ip port typ ++ rest ->
  0 < max_str_digits < String.length component ->
  parse_candidate c = Raise ValueError.
Proof.
  intros Hf Hc Hp Hq Hip Hport Htyp Hrest Hs Hlim. unfold parse_candidate.
  rewrite Hs, (re_match_candidate_line foundation component protocol priority ip port typ rest)
    by assumption.
  rewrite (int_over_limit _ Hlim). reflexivity.
Qed.

End PatternFacts.

(** C6, counterexample. A server-reflexive candidate with its related
    address after the type is not a line of the grammar (it has eleven
    spaces, a line of the grammar has seven), yet it is parsed, the type
    being [srflx]. *)
Lemma candidate_with_related_address_is_parsed :
  ~ grammar_line (candidate a_srflx_candidate) /\
  parse_candidate (C := stub renders_picture false) a_srflx_candidate
  = Ok (Some (mkRTCIceCandidate 1 "842163049" "203.0.113.5" 46154 1677729535
                "udp" "srflx" "0" 0)).
Proof.
  split.
  - intros H. apply grammar_line_spaces in H. vm_compute in H. discriminate.
  - vm_compute. reflexivity.
Qed.

Lemma parse_candidate_witness :
  convertible (C := stub renders_picture false) (candidate a_candidate) /\
  candidate a_candidate
  = (candidate_line "1" "1" "udp" "2122260223" "192.168.1.7" "54321" "host" ++ "")%string /\
  parse_candidate (C := stub renders_picture false) a_candidate
  = Ok (Some (mkRTCIceCandidate 1 "1" "192.168.1.7" 54321 2122260223 "udp" "host" "0" 0)).
Proof.
  assert (Hlen : convertible (C := stub renders_picture false) (candidate a_candidate)).
  { right. vm_compute. lia. }
  split; [exact Hlen|]. split; [reflexivity|].
  exact (proj2 (proj2 (parse_candidate_matches_prefix
                         (C := stub renders_picture false) a_candidate) Hlen)
           "1" "1" "udp" "2122260223" "192.168.1.7" "54321" "host" ""
           eq_refl eq_refl eq_refl eq_refl eq_refl eq_refl eq_refl eq_refl eq_refl).
Defined.

(** ** Control messages *)

Section ControlFacts.
Context `{C : Collaborators}.

(** A [camera_update] hands the position as received, and the rotation as
    [Rotation.from_euler] converts it, to the renderer of the track's
    session in one [update] call; nothing else changes. *)
Lemma on_message_camera_update (track : nat) (message : string) (w : World)
    (payload position rotation : Json) (m : Matrix) (t : FrameProducer) (r : Renderer) :
  json_loads message = Ok payload ->
  getitem payload "type" = Ok (JStr "camera_update") ->
  getitem payload "position" = Ok position ->
  getitem payload "rotation" = Ok rotation ->
  from_euler_xyz_degrees rotation = Ok m ->
  tracks w !! track = Some t ->
  renderers w !! renderer (session t) = Some r ->
  on_message track message w
  = Some (mkWorld (sessions w)
            (<[renderer (session t) := fst (update position m r)]> (renderers w))
            (peer_connections w) (tracks w) (output w),
          snd (update position m r)).
Proof.
  intros Hj Hty Hp Hr Hm Ht Hrd. unfold on_message.
  rewrite Hj, Hty. simpl. rewrite Hp, Hr, Hm, Ht, Hrd.
  destruct (update position m r). reflexivity.
Qed.

(** A message of any other type is ignored. *)
Lemma on_message_other_type (track : nat) (message : string) (w : World)
    (payload ty : Json) :
  json_loads message = Ok payload ->
  getitem payload "type" = Ok ty ->
  is_camera_update ty = false ->
  on_message track message w = Some (w, Ok tt).
Proof.
  intros Hj Hty Hc. unfold on_message. rewrite Hj, Hty, Hc. reflexivity.
Qed.

End ControlFacts.

(** ** More on pulls *)

Section PullFacts.
Context `{C : Collaborators}.

Lemma recv_loop_more_fuel (n k : nat) (st st' : LoopState) :
  recv_loop n st = Finished st' -> recv_loop (n + k) st = Finished st'.
Proof.
  revert st. induction n as [|n IH]; intros st; simpl; [discriminate|].
  destruct (recv_iteration st) as [st1 [|]]; [auto | apply IH].
Qed.

(** The counter never passes the bound, nor the number of [render()]
    calls. *)
Lemma recv_loop_counts (fuel : nat) (st st' : LoopState) :
  no_frame st -> failed_attempts st < max_failed_attempts ->
  failed_attempts st <= render_calls st ->
  recv_loop fuel st = Finished st' ->
  failed_attempts st' <= max_failed_attempts /\ failed_attempts st' <= render_calls st'.
Proof.
  revert st. induction fuel as [|fuel IH]; intros st Hnf Hlt Hle; simpl; [discriminate|].
  pose proof (recv_iteration_spec st Hnf) as Hs.
  destruct (recv_iteration st) as [st1 ctl].
  destruct Hs as (Hc & [(-> & Hf & Hfa) | [(Hnf1 & Hfa & Hb) | (Hnf1 & Hfa & -> & _)]]).
  - intros [= <-]. lia.
  - destruct ctl.
    + intros [= <-]. lia.
    + apply IH; [exact Hnf1 | | lia].
      destruct (Nat.le_gt_cases max_failed_attempts (S (failed_attempts st))) as [Hge|Hgt].
      * destruct Hb as [_ Hb]. specialize (Hb Hge). discriminate.
      * lia.
  - apply IH; [exact Hnf1 | lia | lia].
Qed.

Lemma loop_start_no_frame (r : Renderer) (c : Codec) : no_frame (loop_start r c).
Proof. left. reflexivity. Qed.

(** Every pass calls [render()]. *)
Lemma recv_loop_calls_grow (fuel : nat) (st st' : LoopState) :
  no_frame st -> recv_loop fuel st = Finished st' -> render_calls st < render_calls st'.
Proof.
  revert st. induction fuel as [|fuel IH]; intros st Hnf; simpl; [discriminate|].
  pose proof (recv_iteration_spec st Hnf) as Hs.
  destruct (recv_iteration st) as [st1 ctl].
  destruct Hs as (Hc & [(-> & _) | [(Hnf1 & _) | (Hnf1 & _ & -> & _)]]).
  - intros [= <-]. lia.
  - destruct ctl; [intros [= <-]; lia|].
    intros H. apply IH in H; [lia | exact Hnf1].
  - intros H. apply IH in H; [lia | exact Hnf1].
Qed.

(** What a pull with a result went through. *)
Lemma recv_inv (fuel track : nat) (w w' : World) (x : result VideoFrame) :
  recv fuel track w = Some (w', x) ->
  exists t r clock' stamp_,
    tracks w !! track = Some t /\ renderers w !! renderer (session t) = Some r /\
    next_timestamp (clock t) = (clock', stamp_) /\
    match stamp_ with
    | Raise e =>
        x = Raise e /\
        w' = mkWorld (sessions w) (renderers w) (peer_connections w)
               (<[track := mkFrameProducer (session t) (container t) clock']> (tracks w))
               (output w)
    | Ok (pts, time_base) =>
        exists st,
          recv_loop fuel (loop_start r (container t)) = Finished st /\
          x = stamp (frame st) pts time_base /\
          w' = mkWorld (sessions w)
                 (<[renderer (session t) := ls_renderer st]> (renderers w))
                 (peer_connections w)
                 (<[track := mkFrameProducer (session t) (ls_container st) clock']> (tracks w))
                 (output w ++ ls_output st)
    end.
Proof.
  unfold recv. intros H.
  destruct (tracks w !! track) as [t|] eqn:Ht; [|discriminate].
  destruct (renderers w !! renderer (session t)) as [r|] eqn:Hr; [|discriminate].
  destruct (next_timestamp (clock t)) as [clock' stamp_] eqn:Hn.
  exists t, r, clock', stamp_.
  split; [reflexivity|]. split; [exact Hr|]. split; [first [reflexivity | exact Hn]|].
  destruct stamp_ as [[pts_ tb]|e].
  - destruct (recv_loop fuel _) as [st|st] eqn:Hl; [|discriminate].
    injection H as <- <-. exists st. auto.
  - injection H as <- <-. auto.
Qed.

(** X1. With a renderer that never answers "no data" (each [render()]
    raises or returns a non-empty buffer), the loop of a pull ends within
    ten passes whatever the renderer and the codec do: given ten passes or
    more it has finished, after one to ten [render()] calls, with at most
    ten failures counted and never more failures than calls. *)
Theorem recv_loop_ends_within_ten_calls (fuel : nat) (r : Renderer) (c : Codec) :
  never_empty -> max_failed_attempts <= fuel ->
  exists st,
    recv_loop fuel (loop_start r c) = Finished st /\
    1 <= render_calls st <= max_failed_attempts /\
    failed_attempts st <= max_failed_attempts /\
    failed_attempts st <= render_calls st.
Proof.
  intros Hne Hfuel.
  assert (Hnf : no_frame (loop_start r c)) by (left; reflexivity).
  destruct (recv_loop_bounded_when_never_empty max_failed_attempts (loop_start r c) Hne Hnf)
    as (st & Hrun & Hcalls); [reflexivity | unfold max_failed_attempts; lia |].
  exists st. replace fuel with (max_failed_attempts + (fuel - max_failed_attempts)) by lia.
  split; [apply recv_loop_more_fuel; exact Hrun|].
  assert (Hcnt : failed_attempts st <= max_failed_attempts
                 /\ failed_attempts st <= render_calls st).
  { apply (recv_loop_counts _ _ _ Hnf) with (3 := Hrun);
      [unfold max_failed_attempts; simpl; lia | simpl; lia]. }
  destruct Hcnt as [Hfa Hle].
  pose proof (recv_loop_calls_grow _ _ _ Hnf Hrun) as Hgrow.
  simpl in Hcalls, Hgrow. repeat split; lia.
Qed.


(** X3. No exception of [render()] or of the codec leaves a pull. When a
    pull raises, either [next_timestamp] raised, and then [render()] was not
    called and no renderer changed, or exactly ten failures were counted
    and the exception is the [UnboundLocalError] or [AttributeError] of the
    statements after the loop. *)
Theorem recv_raises_only_from_clock_or_exhaustion
    (fuel track : nat) (w w' : World) (e : exn) :
  recv fuel track w = Some (w', Raise e) ->
  exists t r clock',
    tracks w !! track = Some t /\ renderers w !! renderer (session t) = Some r /\
    ((next_timestamp (clock t) = (clock', Raise e) /\ renderers w' = renderers w /\
      output w' = output w)
     \/ (exists pts_ time_base_ st,
           next_timestamp (clock t) = (clock', Ok (pts_, time_base_)) /\
           recv_loop fuel (loop_start r (container t)) = Finished st /\
           failed_attempts st = max_failed_attempts /\
           (e = UnboundLocalError "frame" \/ e = AttributeError "pts"))).
Proof.
  intros H. apply recv_inv in H.
  destruct H as (t & r & clock' & [[pts_ tb]|e'] & Ht & Hr & Hn & H).
  - destruct H as (st & Hrun & Hx & _).
    exists t, r, clock'. split; [exact Ht|]. split; [exact Hr|]. right.
    exists pts_, tb, st. split; [exact Hn|]. split; [exact Hrun|].
    pose proof (recv_loop_finished _ _ _ (loop_start_no_frame _ _) (Nat.lt_0_succ _) Hrun) as Hfin.
    destruct Hfin as [[[f Hf] _] | [Hnf Hfa]].
    + rewrite Hf in Hx. discriminate.
    + split; [exact Hfa|].
      destruct Hnf as [Hf|Hf]; rewrite Hf in Hx; simpl in Hx; injection Hx as ->; auto.
  - destruct H as [Hx ->]. injection Hx as ->.
    exists t, r, clock'. split; [exact Ht|]. split; [exact Hr|]. left. auto.
Qed.

(** X4. A pull reads and writes its own track and its session's renderer
    only: the registry and the peer connections are as before, every other
    track and every other renderer is as before, records are only added;
    and the track's clock has advanced by exactly one [next_timestamp],
    whether the pull returned a frame or raised. *)
Theorem recv_touches_only_its_own_session
    (fuel track : nat) (w w' : World) (x : result VideoFrame) (t : FrameProducer) :
  tracks w !! track = Some t ->
  recv fuel track w = Some (w', x) ->
  touches_only track (renderer (session t)) w w' /\
  exists t', tracks w' !! track = Some t' /\ session t' = session t /\
             clock t' = fst (next_timestamp (clock t)).
Proof.
  intros Ht H. pose proof (lookup_lt_Some _ _ _ Ht) as Hlt. apply recv_inv in H.
  destruct H as (t0 & r & clock' & stamp_ & Ht0 & Hr & Hn & H).
  rewrite Ht in Ht0. injection Ht0 as <-. rewrite Hn. simpl.
  destruct stamp_ as [[pts_ tb]|e].
  - destruct H as (st & _ & _ & ->). unfold touches_only; simpl. repeat split.
    + intros other Hne. apply list_lookup_insert_ne. congruence.
    + intros other Hne. apply list_lookup_insert_ne. congruence.
    + eauto.
    + eexists. split; [apply list_lookup_insert_eq; exact Hlt|]. auto.
  - destruct H as [_ ->]. unfold touches_only; simpl. repeat split.
    + intros other Hne. apply list_lookup_insert_ne. congruence.
    + exists []. rewrite app_nil_r. reflexivity.
    + eexists. split; [apply list_lookup_insert_eq; exact Hlt|]. auto.
Qed.

End PullFacts.

(** ** Sessions do not disturb each other *)

Section IsolationFacts.
Context `{C : Collaborators}.

(** What a pull does depends on its track and on its session's renderer
    only. *)
Lemma recv_outcome_depends (fuel track : nat) (w1 w2 : World) :
  tracks w1 !! track = tracks w2 !! track ->
  (forall t, tracks w2 !! track = Some t ->
             renderers w1 !! renderer (session t) = renderers w2 !! renderer (session t)) ->
  outcome (recv fuel track w1) = outcome (recv fuel track w2).
Proof.
  intros Ht Hr. unfold recv. rewrite Ht.
  destruct (tracks w2 !! track) as [t|]; [|reflexivity].
  rewrite (Hr t eq_refl).
  destruct (renderers w2 !! renderer (session t)) as [r|]; [|reflexivity].
  destruct (next_timestamp (clock t)) as [clock' [[pts_ tb]|e]]; [|reflexivity].
  destruct (recv_loop fuel _); reflexivity.
Qed.

Lemma touches_only_other_track (fuel t1 t2 : nat) (a : FrameProducer) (w w' : World) :
  invariant w -> tracks w !! t1 = Some a -> t1 <> t2 ->
  touches_only t1 (renderer (session a)) w w' ->
  outcome (recv fuel t2 w') = outcome (recv fuel t2 w).
Proof.
  intros (_ & _ & Huniq) Ha Hne (_ & _ & Ht & Hr & _).
  assert (Ht2 : tracks w' !! t2 = tracks w !! t2) by (apply Ht; congruence).
  apply recv_outcome_depends; [exact Ht2|].
  intros b Hb. apply Hr. intros Heq. apply Hne.
  apply (Huniq t1 t2 (session a) (session b)).
  - unfold created. change (map session (tracks w)) with (session <$> tracks w).
    rewrite list_lookup_fmap, Ha. reflexivity.
  - unfold created. change (map session (tracks w)) with (session <$> tracks w).
    rewrite list_lookup_fmap, Hb. reflexivity.
  - left. congruence.
Qed.

(** What a control message did, when it did anything. *)
Lemma on_message_inv (track : nat) (message : string) (w w' : World) (x : result unit) :
  on_message track message w = Some (w', x) ->
  w' = w \/
  exists payload position rotation m t r,
    json_loads message = Ok payload /\
    getitem payload "type" = Ok (JStr "camera_update") /\
    getitem payload "position" = Ok position /\
    getitem payload "rotation" = Ok rotation /\
    from_euler_xyz_degrees rotation = Ok m /\
    tracks w !! track = Some t /\ renderers w !! renderer (session t) = Some r /\
    x = snd (update position m r) /\
    w' = mkWorld (sessions w)
           (<[renderer (session t) := fst (update position m r)]> (renderers w))
           (peer_connections w) (tracks w) (output w).
Proof.
  unfold on_message. intros H.
  destruct (json_loads message) as [payload|e] eqn:Hj; [|injection H as <- _; auto].
  destruct (getitem payload "type") as [ty|e] eqn:Hty; [|injection H as <- _; auto].
  destruct (is_camera_update ty) eqn:Hc; [|injection H as <- _; auto].
  assert (ty = JStr "camera_update") as ->.
  { destruct ty; simpl in Hc; try discriminate. apply String.eqb_eq in Hc. congruence. }
  destruct (getitem payload "position") as [position|e] eqn:Hp; [|injection H as <- _; auto].
  destruct (getitem payload "rotation") as [rotation|e] eqn:Hr; [|injection H as <- _; auto].
  destruct (from_euler_xyz_degrees rotation) as [m|e] eqn:Hm; [|injection H as <- _; auto].
  destruct (tracks w !! track) as [t|] eqn:Ht; [|discriminate].
  destruct (renderers w !! renderer (session t)) as [r|] eqn:Hrd; [|discriminate].
  destruct (update position m r) as [r' res] eqn:Hu. injection H as <- <-.
  right. exists payload, position, rotation, m, t, r. rewrite Hu. simpl. auto 10.
Qed.

(** X5. In a reachable world a pull on one track does not change what a
    pull on any other track does: the other track and its session's
    renderer are exactly as they were. *)
Theorem pull_does_not_disturb_other_sessions
    (fuel1 fuel2 t1 t2 : nat) (w w' : World) (x : result VideoFrame) :
  reachable w -> t1 <> t2 ->
  recv fuel1 t1 w = Some (w', x) ->
  outcome (recv fuel2 t2 w') = outcome (recv fuel2 t2 w).
Proof.
  intros Hreach Hne Hrun.
  destruct (recv_inv _ _ _ _ _ Hrun) as (a & _ & _ & _ & Ha & _).
  apply (touches_only_other_track fuel2 t1 t2 a);
    [apply reachable_invariant; exact Hreach | exact Ha | exact Hne |].
  pose proof (lookup_lt_Some _ _ _ Ha) as Hlt. apply recv_inv in Hrun.
  destruct Hrun as (t0 & r & clock' & stamp_ & Ht0 & Hr & Hn & H).
  rewrite Ha in Ht0. injection Ht0 as <-.
  destruct stamp_ as [[pts_ tb]|e].
  - destruct H as (st & _ & _ & ->). unfold touches_only; simpl. repeat split.
    + intros other Ho. apply list_lookup_insert_ne. congruence.
    + intros other Ho. apply list_lookup_insert_ne. congruence.
    + eauto.
  - destruct H as [_ ->]. unfold touches_only; simpl. repeat split.
    + intros other Ho. apply list_lookup_insert_ne. congruence.
    + exists []. rewrite app_nil_r. reflexivity.
Qed.

(** X6. In a reachable world a control message on one session's data
    channel does not change what a pull on any other track does: a
    [camera_update] moves the camera of its own session only. *)
Theorem camera_update_does_not_disturb_other_sessions
    (fuel t1 t2 : nat) (message : string) (w w' : World) (x : result unit) :
  reachable w -> t1 <> t2 ->
  on_message t1 message w = Some (w', x) ->
  outcome (recv fuel t2 w') = outcome (recv fuel t2 w).
Proof.
  intros Hreach Hne Hrun. apply on_message_inv in Hrun.
  destruct Hrun as [-> | (payload & position & rotation & m & a & r & _ & _ & _ & _ & _ & Ha & _ & _ & ->)];
    [reflexivity|].
  apply (touches_only_other_track fuel t1 t2 a);
    [apply reachable_invariant; exact Hreach | exact Ha | exact Hne |].
  unfold touches_only; simpl. repeat split.
  - intros other Ho. apply list_lookup_insert_ne. congruence.
  - exists []. rewrite app_nil_r. reflexivity.
Qed.

(** X7. A control message changes the world only when it is a JSON object
    of type [camera_update] that has a [position] and a [rotation] the
    conversion accepts; then the only change is one [update] call on the
    renderer of the data channel's own session. Any other message (not
    JSON, not an object, no [type], another type, a key missing, a
    rotation refused) leaves the world exactly as it was. *)
Theorem on_message_changes_only_its_renderer
    (track : nat) (message : string) (w w' : World) (x : result unit) :
  on_message track message w = Some (w', x) ->
  w' = w \/
  exists payload position rotation m t r,
    json_loads message = Ok payload /\
    getitem payload "type" = Ok (JStr "camera_update") /\
    getitem payload "position" = Ok position /\
    getitem payload "rotation" = Ok rotation /\
    from_euler_xyz_degrees rotation = Ok m /\
    tracks w !! track = Some t /\ renderers w !! renderer (session t) = Some r /\
    x = snd (update position m r) /\
    renderers w' = <[renderer (session t) := fst (update position m r)]> (renderers w) /\
    sessions w' = sessions w /\ peer_connections w' = peer_connections w /\
    tracks w' = tracks w /\ output w' = output w.
Proof.
  intros H. apply on_message_inv in H.
  destruct H as [-> | (payload & position & rotation & m & t & r & Hj & Hty & Hp & Hr & Hm & Ht & Hrd & -> & ->)];
    [left; reflexivity|].
  right. exists payload, position, rotation, m, t, r. simpl. auto 15.
Qed.

End IsolationFacts.

(** ** Signalling *)

Section SignallingFacts.
Context `{C : Collaborators}.

(** A line no prefix of which has the form of the pattern finds no
    match. *)
Lemma parse_candidate_no_match (c : IceCandidate) :
  ~ pattern_prefix (candidate c) -> parse_candidate c = Ok None.
Proof.
  intros Hno. unfold parse_candidate.
  destruct (re_match pattern (candidate c)) as [groups|] eqn:Hm; [|reflexivity].
  exfalso. apply Hno. destruct (re_match_sound _ _ _ Hm) as [rest Hmatch].
  apply matches_pattern in Hmatch.
  destruct Hmatch as (f & cm & p & q & ip & port & typ & _ & H).
  exists f, cm, p, q, ip, port, typ, rest. exact H.
Qed.

(** X8. A candidate for a registered session whose line is a line of the
    grammar, no longer than the limit of [int], is handed to the peer
    connection of that session as the [RTCIceCandidate] with exactly those
    fields, together with the [sdpMid] and [sdpMLineIndex] of the request;
    the handler returns or raises what [addIceCandidate] does, and nothing
    else in the world changes. *)
Theorem add_ice_candidate_reaches_the_session_connection
    (foundation component protocol priority ip port typ mid ufrag session_id : string)
    (index : Z) (w : World) (s : Session) (p : PeerConnection) :
  let line := candidate_line foundation component protocol priority ip port typ in
  let ice := mkRTCIceCandidate (decimal_value component) foundation ip
               (decimal_value port) (decimal_value priority) protocol typ mid index in
  token is_digit foundation = true -> token is_digit component = true ->
  token is_alnum protocol = true -> token is_digit priority = true ->
  token is_nonspace ip = true -> token is_digit port = true ->
  token is_alnum typ = true -> convertible line ->
  sessions w !! session_id = Some s ->
  peer_connections w !! pc s = Some p ->
  add_ice_candidate (mkIceCandidate line index mid ufrag) session_id w
  = Some (set_peer_connection (pc s) (fst (addIceCandidate ice p)) w,
          snd (addIceCandidate ice p)).
Proof.
  intros line ice Hf Hc Hp Hq Hip Hport Htyp Hlen Hs Hpc.
  unfold add_ice_candidate. rewrite Hs.
  unfold line. rewrite parse_candidate_grammar_line by assumption.
  unfold on_pc. rewrite Hpc. fold ice. destruct (addIceCandidate ice p). reflexivity.
Qed.

(** X9. A candidate for a registered session whose line has no prefix of
    the pattern's form is dropped: one record is logged, no peer
    connection is touched, and the request succeeds. *)
Theorem add_ice_candidate_drops_what_does_not_match
    (c : IceCandidate) (session_id : string) (w : World) (s : Session) :
  sessions w !! session_id = Some s ->
  ~ pattern_prefix (candidate c) ->
  add_ice_candidate c session_id w
  = Some (mkWorld (sessions w) (renderers w) (peer_connections w) (tracks w)
            (output w ++ [log_failed_ice (candidate c)]),
          Ok tt).
Proof.
  intros Hs Hno. unfold add_ice_candidate.
  rewrite Hs, parse_candidate_no_match by exact Hno. reflexivity.
Qed.

(** X10. An offer whose remote description the peer connection refuses
    makes the request fail with that exception, but only after the session
    was made: the new session stays in the registry under the identifier,
    with its renderer, its peer connection and its track allocated. *)
Theorem refused_offer_leaves_its_session_registered
    (offer : Offer) (session_id : string) (w : World) (p' : PeerConnection) (e : exn) :
  setRemoteDescription offer
    (addTrack (length (tracks w)) (set_configuration get_ice_servers RTCPeerConnection_new))
  = (p', Raise e) ->
  exists w',
    create_offer offer session_id w = Some (w', Raise e) /\
    sessions w' !! session_id
    = Some (mkSession session_id (length (renderers w)) (length (peer_connections w))) /\
    renderers w' = renderers w ++ [Renderer_new] /\
    peer_connections w' = peer_connections w ++ [p'] /\
    length (tracks w') = S (length (tracks w)).
Proof.
  intros Hset. unfold create_offer, create_session. simpl.
  rewrite list_lookup_middle by reflexivity.
  match goal with |- context [on_pc _ _ ?w3] => set (w3' := w3) end.
  assert (H3 : peer_connections w3' =
               peer_connections w ++ [set_configuration get_ice_servers RTCPeerConnection_new])
    by reflexivity.
  destruct (on_pc_last (fun p => (addTrack (length (tracks w)) p, Ok tt)) w3' _ _ H3)
    as (w4 & -> & H4 & S4). simpl in H4.
  destruct (on_pc_last (setRemoteDescription offer) w4 _ _ H4) as (w5 & -> & H5 & S5).
  pose proof (same_but_pcs_trans _ _ _ S4 S5) as T5.
  rewrite Hset in *. simpl in *.
  exists w5. destruct T5 as (-> & -> & -> & _). simpl.
  split; [reflexivity|]. split; [apply lookup_insert_eq|].
  split; [reflexivity|]. split; [exact H5|].
  rewrite length_app. simpl. lia.
Qed.

(** X11. An offer followed by the failure of its connection leaves the
    registry without the identifier: after [create_offer], once the new
    connection is in state [failed], the callback deletes the entry and
    returns; if the identifier was not registered before the offer, the
    registry is again what it was. *)
Theorem offer_then_teardown_restores_registry
    (offer : Offer) (session_id : string) (w w1 : World) (r : result Offer)
    (failed : PeerConnection) :
  create_offer offer session_id w = Some (w1, r) ->
  connectionState failed = "failed" ->
  exists w2 w3,
    transport (length (peer_connections w)) failed w1 = Some (w2, Ok tt) /\
    on_connectionstatechange (length (peer_connections w)) session_id w2 = Some (w3, Ok tt) /\
    sessions w3 = delete session_id (sessions w) /\
    (sessions w !! session_id = None -> sessions w3 = sessions w).
Proof.
  intros Hrun Hf.
  destruct (create_offer_spec offer session_id w) as (w' & r' & p & Hrun' & Hs & _ & Hp & _).
  rewrite Hrun in Hrun'. injection Hrun' as <- <-.
  unfold transport. rewrite Hp, list_lookup_middle by reflexivity.
  eexists _, _. split; [reflexivity|].
  rewrite (on_connectionstatechange_failed _ _ _ failed);
    [| unfold set_peer_connection; simpl; apply list_lookup_insert_eq;
       rewrite Hp, length_app; simpl; lia
     | exact Hf].
  unfold set_peer_connection; simpl. rewrite Hs, lookup_insert_eq.
  split; [reflexivity|]. rewrite delete_insert_eq.
  split; [reflexivity | apply delete_id].
Qed.

(** X12. The callback deletes by identifier, not by session. When a
    connection fails whose identifier is by now registered to another
    session (one made by a later offer for the same identifier), the
    callback closes the failed connection and removes that other session's
    entry; the other session's own connection is left as it is. *)
Theorem teardown_removes_whatever_is_registered
    (pc0 : nat) (session_id : string) (w : World) (p : PeerConnection) (s : Session) :
  peer_connections w !! pc0 = Some p ->
  connectionState p = "failed" ->
  sessions w !! session_id = Some s ->
  pc s <> pc0 ->
  exists w',
    on_connectionstatechange pc0 session_id w = Some (w', Ok tt) /\
    sessions w' !! session_id = None /\
    peer_connections w' !! pc0 = Some (pc_close p) /\
    peer_connections w' !! pc s = peer_connections w !! pc s.
Proof.
  intros Hp Hf Hs Hne. rewrite (on_connectionstatechange_failed _ _ _ _ Hp Hf), Hs.
  eexists. split; [reflexivity|]. simpl.
  split; [apply lookup_delete_eq|].
  split; [apply list_lookup_insert_eq; eapply lookup_lt_Some; eauto|].
  apply list_lookup_insert_ne. congruence.
Qed.

(** X13. When two connections made for the same identifier both fail, the
    first callback removes the entry and the second closes its connection
    and then raises [KeyError] at the deletion. *)
Theorem second_teardown_raises_KeyError
    (pc1 pc2 : nat) (session_id : string) (w w1 : World) (p1 p2 : PeerConnection)
    (r : result unit) :
  pc1 <> pc2 ->
  peer_connections w !! pc1 = Some p1 -> connectionState p1 = "failed" ->
  peer_connections w !! pc2 = Some p2 -> connectionState p2 = "failed" ->
  on_connectionstatechange pc1 session_id w = Some (w1, r) ->
  exists w2,
    on_connectionstatechange pc2 session_id w1 = Some (w2, Raise (KeyError session_id)) /\
    peer_connections w2 !! pc2 = Some (pc_close p2) /\
    sessions w2 = sessions w1.
Proof.
  intros Hne H1 Hf1 H2 Hf2 Hrun.
  rewrite (on_connectionstatechange_failed _ _ _ _ H1 Hf1) in Hrun.
  injection Hrun as <- _.
  assert (H2' : peer_connections
                  (set_sessions (delete session_id (sessions w)) (close pc1 p1 w)) !! pc2
                = Some p2).
  { simpl. rewrite list_lookup_insert_ne by congruence. exact H2. }
  rewrite (on_connectionstatechange_failed _ _ _ _ H2' Hf2). simpl.
  rewrite lookup_delete_eq. eexists. split; [reflexivity|]. simpl.
  split; [|rewrite delete_delete_eq; reflexivity].
  apply list_lookup_insert_eq. rewrite length_insert. eapply lookup_lt_Some; eauto.
Qed.

End SignallingFacts.

(** ** How the registry changes *)

Section RegistryChangeFacts.
Context `{C : Collaborators}.

Lemma add_ice_candidate_sessions (c : IceCandidate) (session_id : string)
    (w w' : World) (r : result unit) :
  add_ice_candidate c session_id w = Some (w', r) -> sessions w' = sessions w.
Proof.
  unfold add_ice_candidate, on_pc.
  destruct (sessions w !! session_id) as [s|]; [|intros [= <- _]; reflexivity].
  destruct (parse_candidate c) as [[ice|]|e]; [| intros [= <- _]; reflexivity ..].
  destruct (peer_connections w !! pc s) as [p|]; [|discriminate].
  destruct (addIceCandidate ice p). intros [= <- _]. reflexivity.
Qed.

Lemma on_message_sessions (track : nat) (message : string) (w w' : World) (r : result unit) :
  on_message track message w = Some (w', r) -> sessions w' = sessions w.
Proof.
  intros H. apply on_message_inv in H.
  destruct H as [-> | (? & ? & ? & ? & ? & ? & _ & _ & _ & _ & _ & _ & _ & _ & ->)];
    reflexivity.
Qed.

(** Every event is an offer, the teardown of a failed connection, or leaves
    the registry as it is. *)
Lemma step_sessions (w w' : World) :
  step w w' ->
  (exists offer session_id r,
      create_offer offer session_id w = Some (w', r) /\
      sessions w'
      = <[session_id := mkSession session_id (length (renderers w))
                          (length (peer_connections w))]> (sessions w))
  \/ (exists pc session_id p r,
        peer_connections w !! pc = Some p /\ connectionState p = "failed" /\
        on_connectionstatechange pc session_id w = Some (w', r) /\
        sessions w' = delete session_id (sessions w) /\
        (is_Some (sessions w !! session_id) -> r = Ok tt))
  \/ sessions w' = sessions w.
Proof.
  intros Hstep. destruct Hstep as
    [offer sid w w' r H | c sid w w' r H | pc sid w w' r H | track msg w w' r H
    | fuel track w w' r H | pc p w w' r H].
  - left. exists offer, sid, r. split; [exact H|].
    destruct (create_offer_spec offer sid w) as (w2 & r2 & p & H2 & Hs & _).
    rewrite H in H2. injection H2 as <- <-. exact Hs.
  - right. right. eapply add_ice_candidate_sessions; eauto.
  - destruct (peer_connections w !! pc) as [p|] eqn:Hp;
      [| unfold on_connectionstatechange in H; rewrite Hp in H; discriminate].
    destruct (String.eqb_spec (connectionState p) "failed") as [Hf|Hf].
    + right. left. exists pc, sid, p, r. split; [exact Hp|]. split; [exact Hf|].
      split; [exact H|].
      rewrite (on_connectionstatechange_failed _ _ _ _ Hp Hf) in H. injection H as <- <-.
      split; [reflexivity|]. intros [s ->]. reflexivity.
    + right. right. rewrite (on_connectionstatechange_other _ _ _ _ Hp Hf) in H.
      injection H as <- _. reflexivity.
  - right. right. eapply on_message_sessions; eauto.
  - right. right. eapply recv_sessions; eauto.
  - right. right. unfold transport in H.
    destruct (peer_connections w !! pc); [|discriminate]. injection H as <- _. reflexivity.
Qed.


(** X15. An entry enters the registry in one way only: [create_offer] ran
    for its identifier, and the entry is the session that offer made. *)
Theorem registry_gains_an_entry_only_by_an_offer
    (w w' : World) (session_id : string) (s : Session) :
  step w w' ->
  sessions w !! session_id = None ->
  sessions w' !! session_id = Some s ->
  exists offer r,
    create_offer offer session_id w = Some (w', r) /\
    s = mkSession session_id (length (renderers w)) (length (peer_connections w)).
Proof.
  intros Hstep Hnone Hs. apply step_sessions in Hstep.
  destruct Hstep as [(offer & sid & r & Hrun & Hw') | [(pc & sid & p & r & _ & _ & _ & Hw' & _) | Hw']].
  - rewrite Hw' in Hs. apply lookup_insert_Some in Hs.
    destruct Hs as [[-> <-] | [_ Hs]]; [eauto | congruence].
  - rewrite Hw' in Hs. apply lookup_delete_Some in Hs. destruct Hs as [_ Hs]. congruence.
  - congruence.
Qed.

(** The handles are adequate: in a reachable world no handler follows a
    handle that is not allocated: every offer and every candidate request has an outcome, so
    have a control message and a state change of any connection made so
    far, and so has a pull on any track made so far once its loop ends
    (which it does within ten passes when the renderer never answers "no
    data"). *)
Lemma handlers_have_outcomes_in_reachable_worlds (w : World) :
  reachable w ->
  (forall offer session_id, is_Some (create_offer offer session_id w)) /\
  (forall c session_id, is_Some (add_ice_candidate c session_id w)) /\
  (forall track message, track < length (tracks w) -> is_Some (on_message track message w)) /\
  (forall pc session_id,
      pc < length (peer_connections w) -> is_Some (on_connectionstatechange pc session_id w)) /\
  (forall fuel track,
      track < length (tracks w) -> never_empty -> max_failed_attempts <= fuel ->
      is_Some (recv fuel track w)).
Proof.
  intros Hreach. destruct (reachable_invariant w Hreach) as (Hreg & Halloc & _).
  assert (Htrack : forall track, track < length (tracks w) ->
            exists t r, tracks w !! track = Some t /\
                        renderers w !! renderer (session t) = Some r).
  { intros track Hlt. destruct (lookup_lt_is_Some_2 _ _ Hlt) as [t Ht].
    destruct (Halloc (session t)) as [Hr _].
    { unfold created. change (map session (tracks w)) with (session <$> tracks w).
      apply list_elem_of_fmap. exists t. split; [reflexivity|].
      eapply list_elem_of_lookup_2; eauto. }
    destruct (lookup_lt_is_Some_2 _ _ Hr) as [r Hrd]. eauto. }
  split; [|split; [|split; [|split]]].
  - intros offer sid.
    destruct (create_offer_spec offer sid w) as (w' & r & _ & -> & _). eauto.
  - intros c sid. unfold add_ice_candidate.
    destruct (sessions w !! sid) as [s|] eqn:Hs; [|eauto].
    destruct (parse_candidate c) as [[ice|]|e]; [|eauto ..].
    destruct (Hreg _ _ Hs) as [_ Hin]. destruct (Halloc _ Hin) as [_ Hp].
    destruct (lookup_lt_is_Some_2 _ _ Hp) as [p Hpc].
    unfold on_pc. rewrite Hpc. destruct (addIceCandidate ice p). eauto.
  - intros track message Hlt. destruct (Htrack _ Hlt) as (t & r & Ht & Hr).
    unfold on_message. rewrite Ht, Hr.
    repeat (case_match; simplify_eq/=; eauto).
  - intros pc sid Hlt. destruct (lookup_lt_is_Some_2 _ _ Hlt) as [p Hp].
    unfold on_connectionstatechange. rewrite Hp.
    repeat (case_match; simplify_eq/=; eauto).
  - intros fuel track Hlt Hne Hfuel. destruct (Htrack _ Hlt) as (t & r & Ht & Hr).
    unfold recv. rewrite Ht, Hr.
    destruct (next_timestamp (clock t)) as [clock' [[pts_ tb]|e]]; [|eauto].
    destruct (recv_loop_bounded_when_never_empty max_failed_attempts
                (loop_start r (container t)) Hne (loop_start_no_frame _ _))
      as (st & Hrun & _); [reflexivity | unfold max_failed_attempts; lia |].
    replace fuel with (max_failed_attempts + (fuel - max_failed_attempts)) by lia.
    rewrite (recv_loop_more_fuel _ _ _ _ Hrun). eauto.
Qed.

(** X16. The first pull on the track of a new offer depends on nothing
    that existed before the offer: it takes the first timestamp of a new
    clock and runs the loop on the new renderer and on a codec context
    created for it. *)
Theorem first_pull_after_offer_uses_new_objects
    (offer : Offer) (session_id : string) (w w1 : World) (r : result Offer) (fuel : nat) :
  create_offer offer session_id w = Some (w1, r) ->
  outcome (recv fuel (length (tracks w)) w1)
  = match next_timestamp Clock_new with
    | (_, Raise e) => Some (Raise e)
    | (_, Ok (pts_, time_base_)) =>
        match recv_loop fuel (loop_start Renderer_new (CodecContext_create Renderer_new)) with
        | Running _ => None
        | Finished st => Some (stamp (frame st) pts_ time_base_)
        end
    end.
Proof.
  intros Hrun.
  destruct (create_offer_spec offer session_id w) as (w' & r' & p & Hrun' & _ & Hr & _ & Ht & _).
  rewrite Hrun in Hrun'. injection Hrun' as <- <-.
  unfold recv. rewrite Ht, list_lookup_middle by reflexivity. simpl.
  rewrite Hr, list_lookup_middle by reflexivity.
  destruct (next_timestamp Clock_new) as [clock' [[pts_ tb]|e]]; [|reflexivity].
  destruct (recv_loop fuel _); reflexivity.
Qed.

End RegistryChangeFacts.

(** ** What a pull logs, and where candidates go after an offer *)

Section LogFacts.
Context `{C : Collaborators}.

Lemma failed_render_free_app (a b : list record) :
  failed_render_free a -> failed_render_free b -> failed_render_free (a ++ b).
Proof.
  intros Ha Hb n Hin. apply elem_of_app in Hin. destruct Hin; [eapply Ha | eapply Hb]; eauto.
Qed.

Lemma failed_render_free_nil : failed_render_free [].
Proof. intros n Hin. inversion Hin. Qed.

Lemma failed_render_free_log_error (e : exn) : failed_render_free [log_error e].
Proof. intros n Hin. apply list_elem_of_singleton in Hin. discriminate. Qed.

Lemma parse_frame_output (c : Codec) (data : bytes) :
  failed_render_free (snd (fst (parse_frame c data))).
Proof.
  unfold parse_frame. destruct (parse_frame_try c data) as [c' [[f|]|e]]; simpl;
    try apply failed_render_free_nil.
  intros n Hin. apply elem_of_cons in Hin. destruct Hin as [Hin|Hin]; [discriminate|].
  apply list_elem_of_singleton in Hin. discriminate.
Qed.

Lemma except_clause_output (e : exn) (st : LoopState) :
  let '(st', ctl) := except_clause e st in
  (ctl = Break /\
   ls_output st' = ls_output st ++ [log_error e] ++ [log_failed_render (failed_attempts st')])
  \/ (ctl = Continue /\ ls_output st' = ls_output st ++ [log_error e]).
Proof.
  unfold except_clause. destruct (_ <=? _)%nat; simpl.
  - left. split; [reflexivity|]. rewrite <- app_assoc. reflexivity.
  - right. auto.
Qed.

(** One pass writes records of single failures, and after them the record
    of exhaustion exactly when it counts a failure and breaks. *)
Lemma recv_iteration_output (st : LoopState) :
  let '(st', ctl) := recv_iteration st in
  exists out,
    failed_render_free out /\
    ((ctl = Break /\ failed_attempts st' = S (failed_attempts st) /\
      ls_output st' = ls_output st ++ out ++ [log_failed_render (failed_attempts st')])
     \/ ((ctl = Continue \/ failed_attempts st' = failed_attempts st) /\
         ls_output st' = ls_output st ++ out)).
Proof.
  unfold recv_iteration.
  destruct (render (ls_renderer st)) as [r' [[data|]|e]]; simpl.
  - destruct (0 <? length data)%nat.
    + pose proof (parse_frame_output (ls_container st) data) as Hout.
      destruct (parse_frame (ls_container st) data) as [[c' out] [[f|]|e]]; simpl in *.
      * exists out. split; [exact Hout|]. right. split; [right; reflexivity | reflexivity].
      * match goal with |- context [except_clause ?e ?s] =>
          pose proof (except_clause_output e s) as He;
          pose proof (except_clause_spec e s) as Hs;
          destruct (except_clause e s) as [st' ctl]
        end.
        simpl in He, Hs. destruct Hs as (_ & _ & _ & _ & Hfa & _).
        exists (out ++ [log_error (Exception "Error parsing frame")]).
        split; [apply failed_render_free_app; auto using failed_render_free_log_error|].
        destruct He as [[-> He] | [-> He]]; [left | right];
          rewrite He, <- !app_assoc; auto.
      * match goal with |- context [except_clause ?e ?s] =>
          pose proof (except_clause_output e s) as He;
          pose proof (except_clause_spec e s) as Hs;
          destruct (except_clause e s) as [st' ctl]
        end.
        simpl in He, Hs. destruct Hs as (_ & _ & _ & _ & Hfa & _).
        exists (out ++ [log_error e]).
        split; [apply failed_render_free_app; auto using failed_render_free_log_error|].
        destruct He as [[-> He] | [-> He]]; [left | right];
          rewrite He, <- !app_assoc; auto.
    + exists []. split; [apply failed_render_free_nil|]. right.
      split; [left; reflexivity | rewrite app_nil_r; reflexivity].
  - exists []. split; [apply failed_render_free_nil|]. right.
    split; [left; reflexivity | rewrite app_nil_r; reflexivity].
  - match goal with |- context [except_clause ?e ?s] =>
      pose proof (except_clause_output e s) as He;
      pose proof (except_clause_spec e s) as Hs;
      destruct (except_clause e s) as [st' ctl]
    end.
    simpl in He, Hs. destruct Hs as (_ & _ & _ & _ & Hfa & _).
    exists [log_error e]. split; [apply failed_render_free_log_error|].
    destruct He as [[-> He] | [-> He]]; [left | right]; rewrite He; auto.
Qed.

Lemma recv_loop_output (fuel : nat) (st st' : LoopState) :
  no_frame st -> failed_attempts st < max_failed_attempts ->
  recv_loop fuel st = Finished st' ->
  exists out,
    failed_render_free out /\
    ((failed_attempts st' = max_failed_attempts /\
      ls_output st' = ls_output st ++ out ++ [log_failed_render max_failed_attempts])
     \/ (failed_attempts st' < max_failed_attempts /\ ls_output st' = ls_output st ++ out)).
Proof.
  revert st. induction fuel as [|fuel IH]; intros st Hnf Hlt; simpl; [discriminate|].
  pose proof (recv_iteration_spec st Hnf) as Hs.
  pose proof (recv_iteration_output st) as Ho.
  destruct (recv_iteration st) as [st1 ctl].
  destruct Ho as (out1 & Hfree1 & Ho).
  destruct ctl.
  - intros [= <-]. exists out1. split; [exact Hfree1|].
    destruct Hs as (_ & [(_ & _ & Hfa) | [(_ & Hfa & Hb) | (_ & _ & Hc & _)]]);
      [| | discriminate].
    + right. split; [lia|].
      destruct Ho as [(_ & Hfa' & _) | (_ & Ho)]; [lia | exact Ho].
    + left. destruct Hb as [Hb _]. specialize (Hb eq_refl).
      assert (Hten : failed_attempts st1 = max_failed_attempts) by lia.
      split; [exact Hten|].
      destruct Ho as [(_ & _ & Ho) | ([Hc | Hfa'] & _)]; [| discriminate | lia].
      rewrite Ho, Hten. reflexivity.
  - intros Hrun.
    assert (Hplain : ls_output st1 = ls_output st ++ out1).
    { destruct Ho as [(Hc & _) | (_ & Ho)]; [discriminate | exact Ho]. }
    assert (Hnf1 : no_frame st1 /\ failed_attempts st1 < max_failed_attempts).
    { destruct Hs as (_ & [(Hc & _) | [(Hnf1 & Hfa & Hb) | (Hnf1 & Hfa & _)]]);
        [discriminate | | split; [exact Hnf1 | lia]].
      split; [exact Hnf1|].
      destruct (Nat.le_gt_cases max_failed_attempts (S (failed_attempts st))) as [Hge|Hgt];
        [| lia].
      destruct Hb as [_ Hb]. specialize (Hb Hge). discriminate. }
    destruct Hnf1 as [Hnf1 Hlt1].
    destruct (IH st1 Hnf1 Hlt1 Hrun) as (out & Hfree & Hout).
    exists (out1 ++ out). split; [apply failed_render_free_app; assumption|].
    destruct Hout as [(Hfa & Hout) | (Hfa & Hout)]; [left | right];
      (split; [exact Hfa|]); rewrite Hout, Hplain, <- !app_assoc; reflexivity.
Qed.

(** X17. The record "Failed to render frame after 10 attempts" is written
    exactly by a pull that counted ten failures, once, as the last record
    of the pull; a pull that ends with a frame writes no such record, and
    every other record of a pull is the log of a single failure. *)
Theorem exhaustion_is_logged_once_at_the_end
    (fuel : nat) (r : Renderer) (c : Codec) (st : LoopState) :
  recv_loop fuel (loop_start r c) = Finished st ->
  exists out,
    failed_render_free out /\
    ((failed_attempts st = max_failed_attempts /\ no_frame st /\
      ls_output st = out ++ [log_failed_render max_failed_attempts])
     \/ (failed_attempts st < max_failed_attempts /\
         (exists f, frame st = Bound (Some f)) /\ ls_output st = out)).
Proof.
  intros Hrun.
  destruct (recv_loop_output _ _ _ (loop_start_no_frame r c) (Nat.lt_0_succ _) Hrun)
    as (out & Hfree & Hout).
  pose proof (recv_loop_finished _ _ _ (loop_start_no_frame r c) (Nat.lt_0_succ _) Hrun)
    as Hfin.
  exists out. split; [exact Hfree|]. simpl in Hout.
  destruct Hout as [(Hfa & Hout) | (Hfa & Hout)].
  - left. split; [exact Hfa|]. split; [|exact Hout].
    destruct Hfin as [[_ Hlt] | [Hnf _]]; [lia | exact Hnf].
  - right. split; [exact Hfa|]. split; [|exact Hout].
    destruct Hfin as [[Hf _] | [_ Heq]]; [exact Hf | lia].
Qed.

(** X18. After an offer, a candidate for its identifier goes to the
    connection that offer made, also when the identifier was registered
    before: every earlier connection, the one of the replaced session
    included, is left as it is. *)
Theorem candidate_after_offer_goes_to_the_new_connection
    (offer : Offer) (session_id : string) (w w1 : World) (r : result Offer)
    (c : IceCandidate) (ice : RTCIceCandidate) :
  create_offer offer session_id w = Some (w1, r) ->
  parse_candidate c = Ok (Some ice) ->
  exists p w2,
    peer_connections w1 !! length (peer_connections w) = Some p /\
    add_ice_candidate c session_id w1 = Some (w2, snd (addIceCandidate ice p)) /\
    peer_connections w2 !! length (peer_connections w) = Some (fst (addIceCandidate ice p)) /\
    (forall earlier, earlier < length (peer_connections w) ->
                     peer_connections w2 !! earlier = peer_connections w !! earlier).
Proof.
  intros Hrun Hparse.
  destruct (create_offer_spec offer session_id w) as (w' & r' & p & Hrun' & Hs & _ & Hp & _).
  rewrite Hrun in Hrun'. injection Hrun' as <- <-.
  assert (Hpc : peer_connections w1 !! length (peer_connections w) = Some p).
  { rewrite Hp. apply list_lookup_middle. reflexivity. }
  exists p. unfold add_ice_candidate. rewrite Hs, lookup_insert_eq, Hparse. simpl.
  unfold on_pc. rewrite Hpc. destruct (addIceCandidate ice p) as [p2 x]. simpl.
  eexists. split; [reflexivity|]. split; [reflexivity|]. simpl.
  split.
  - apply list_lookup_insert_eq. rewrite Hp, length_app. simpl. lia.
  - intros earlier Hlt. rewrite list_lookup_insert_ne by lia.
    rewrite Hp. apply lookup_app_l. exact Hlt.
Qed.

End LogFacts.

(** ** The properties above, on the stub collaborators *)

Lemma run_eq `{C : Collaborators} {A} (w : World) (x : run A) (r : result A) :
  outcome x = Some r -> x = Some (world_after w x, r).
Proof. destruct x as [[w' r']|]; simpl; [intros [= ->]; reflexivity | discriminate]. Qed.

Lemma no_match_no_prefix `{C : Collaborators} (s : string) :
  re_match pattern s = None -> ~ pattern_prefix s.
Proof.
  intros Hnone (f & cm & p & q & ip & port & typ & rest & Hf & Hc & Hp & Hq & Hip & Hport & Htyp & Hs).
  assert (Hm : matches pattern s [f; cm; p; q; ip; port; typ] rest).
  { apply matches_pattern. exists f, cm, p, q, ip, port, typ. auto 10. }
  apply re_match_complete in Hm. rewrite Hnone in Hm. destruct Hm as [x Hx]. discriminate.
Qed.

Lemma reachable_one_session : reachable (one_session (C := stub_ok)).
Proof.
  eapply reachable_step; [apply reachable_empty|].
  apply (step_create_offer an_offer "s" World_empty one_session (Ok (mkOffer "v=0" "answer"))).
  vm_compute. reflexivity.
Qed.

Lemma reachable_two_sessions : reachable (two_sessions (C := stub_ok)).
Proof.
  eapply reachable_step.
  - eapply reachable_step; [apply reachable_empty|].
    apply (step_create_offer an_offer "a" World_empty
             (world_after World_empty (create_offer an_offer "a" World_empty))
             (Ok (mkOffer "v=0" "answer"))).
    vm_compute. reflexivity.
  - apply (step_create_offer an_offer "b" _ two_sessions (Ok (mkOffer "v=0" "answer"))).
    vm_compute. reflexivity.
Qed.

Lemma recv_loop_ends_within_ten_calls_witness :
  never_empty (C := stub render_raises false) /\
  max_failed_attempts <= 10 /\
  exists st,
    recv_loop (C := stub render_raises false) 10
      (loop_start Renderer_new (CodecContext_create Renderer_new)) = Finished st /\
    1 <= render_calls st <= max_failed_attempts /\
    failed_attempts st <= max_failed_attempts /\
    failed_attempts st <= render_calls st.
Proof.
  assert (H : never_empty (C := stub render_raises false)) by (intros r; exact I).
  assert (H10 : max_failed_attempts <= 10) by (unfold max_failed_attempts; lia).
  split; [exact H|]. split; [exact H10|].
  exact (recv_loop_ends_within_ten_calls (C := stub render_raises false) 10
           Renderer_new (CodecContext_create Renderer_new) H H10).
Defined.


Lemma recv_raises_only_from_clock_or_exhaustion_witness :
  recv (C := stub render_raises false) 10 0 one_session
  = Some (world_after one_session (recv (C := stub render_raises false) 10 0 one_session),
          Raise (UnboundLocalError "frame")) /\
  exists t, tracks (one_session (C := stub render_raises false)) !! 0 = Some t.
Proof.
  assert (H : recv (C := stub render_raises false) 10 0 one_session
              = Some (world_after one_session
                        (recv (C := stub render_raises false) 10 0 one_session),
                      Raise (UnboundLocalError "frame")))
    by (apply run_eq; vm_compute; reflexivity).
  split; [exact H|].
  destruct (recv_raises_only_from_clock_or_exhaustion
              (C := stub render_raises false) _ _ _ _ _ H) as (t & r & clock' & Ht & _).
  exists t. exact Ht.
Defined.

Lemma recv_touches_only_its_own_session_witness :
  tracks (two_sessions (C := stub_ok)) !! 0
  = Some (mkFrameProducer (C := stub_ok) (mkSession "a" 0 0) tt (mkStubClock false None)) /\
  recv (C := stub_ok) 10 0 two_sessions
  = Some (world_after two_sessions (recv (C := stub_ok) 10 0 two_sessions), Ok first_frame) /\
  touches_only (C := stub_ok) 0 0 two_sessions
    (world_after two_sessions (recv (C := stub_ok) 10 0 two_sessions)).
Proof.
  assert (Ht : tracks (two_sessions (C := stub_ok)) !! 0
               = Some (mkFrameProducer (C := stub_ok) (mkSession "a" 0 0) tt
                         (mkStubClock false None))) by reflexivity.
  assert (H : recv (C := stub_ok) 10 0 two_sessions
              = Some (world_after two_sessions (recv (C := stub_ok) 10 0 two_sessions),
                      Ok first_frame))
    by (apply run_eq; vm_compute; reflexivity).
  split; [exact Ht|]. split; [exact H|].
  exact (proj1 (recv_touches_only_its_own_session (C := stub_ok) _ _ _ _ _ _ Ht H)).
Defined.

Lemma pull_does_not_disturb_other_sessions_witness :
  reachable (two_sessions (C := stub_ok)) /\ 0 <> 1 /\
  recv (C := stub_ok) 10 0 two_sessions
  = Some (world_after two_sessions (recv (C := stub_ok) 10 0 two_sessions), Ok first_frame) /\
  outcome (recv (C := stub_ok) 10 1
             (world_after two_sessions (recv (C := stub_ok) 10 0 two_sessions)))
  = outcome (recv (C := stub_ok) 10 1 two_sessions).
Proof.
  assert (Hne : 0 <> 1) by discriminate.
  assert (H : recv (C := stub_ok) 10 0 two_sessions
              = Some (world_after two_sessions (recv (C := stub_ok) 10 0 two_sessions),
                      Ok first_frame))
    by (apply run_eq; vm_compute; reflexivity).
  split; [exact reachable_two_sessions|]. split; [exact Hne|]. split; [exact H|].
  exact (pull_does_not_disturb_other_sessions (C := stub_ok) 10 10 0 1 _ _ _
           reachable_two_sessions Hne H).
Defined.

Lemma camera_update_does_not_disturb_other_sessions_witness :
  reachable (two_sessions (C := stub_ok)) /\ 0 <> 1 /\
  on_message (C := stub_ok) 0 "camera" two_sessions
  = Some (world_after two_sessions (on_message (C := stub_ok) 0 "camera" two_sessions), Ok tt) /\
  outcome (recv (C := stub_ok) 10 1
             (world_after two_sessions (on_message (C := stub_ok) 0 "camera" two_sessions)))
  = outcome (recv (C := stub_ok) 10 1 two_sessions).
Proof.
  assert (Hne : 0 <> 1) by discriminate.
  assert (H : on_message (C := stub_ok) 0 "camera" two_sessions
              = Some (world_after two_sessions
                        (on_message (C := stub_ok) 0 "camera" two_sessions), Ok tt))
    by (apply run_eq; vm_compute; reflexivity).
  split; [exact reachable_two_sessions|]. split; [exact Hne|]. split; [exact H|].
  exact (camera_update_does_not_disturb_other_sessions (C := stub_ok) 10 0 1 _ _ _ _
           reachable_two_sessions Hne H).
Defined.

Lemma on_message_changes_only_its_renderer_witness :
  on_message (C := stub_ok) 0 "ping" one_session = Some (one_session, Ok tt) /\
  (one_session (C := stub_ok) = one_session \/
   exists payload, json_loads (Collaborators := stub_ok) "ping" = Ok payload /\
                   getitem payload "type" = Ok (JStr "camera_update")).
Proof.
  assert (H : on_message (C := stub_ok) 0 "ping" one_session = Some (one_session, Ok tt))
    by (vm_compute; reflexivity).
  split; [exact H|].
  destruct (on_message_changes_only_its_renderer (C := stub_ok) _ _ _ _ _ H)
    as [Heq | (payload & position & rotation & m & t & r & Hj & Hty & _)].
  - left. exact Heq.
  - right. exists payload. auto.
Defined.

Lemma add_ice_candidate_reaches_the_session_connection_witness :
  convertible (C := stub_ok)
    (candidate_line "1" "1" "udp" "2122260223" "192.168.1.7" "54321" "host") /\
  sessions (one_session (C := stub_ok)) !! "s" = Some (mkSession "s" 0 0) /\
  peer_connections (one_session (C := stub_ok)) !! 0
  = Some (mkStubPeerConnection "new" [0] []) /\
  outcome (add_ice_candidate (C := stub_ok)
             (mkIceCandidate
                (candidate_line "1" "1" "udp" "2122260223" "192.168.1.7" "54321" "host")
                0 "0" "abcd") "s" one_session)
  = Some (Ok tt).
Proof.
  assert (Hlen : convertible (C := stub_ok)
                   (candidate_line "1" "1" "udp" "2122260223" "192.168.1.7" "54321" "host")).
  { right. vm_compute. lia. }
  assert (Hs : sessions (one_session (C := stub_ok)) !! "s" = Some (mkSession "s" 0 0))
    by reflexivity.
  assert (Hp : peer_connections (one_session (C := stub_ok)) !! pc (mkSession "s" 0 0)
               = Some (mkStubPeerConnection "new" [0] [])) by reflexivity.
  split; [exact Hlen|]. split; [exact Hs|]. split; [exact Hp|].
  rewrite (add_ice_candidate_reaches_the_session_connection (C := stub_ok)
             "1" "1" "udp" "2122260223" "192.168.1.7" "54321" "host" "0" "abcd" "s" 0
             one_session (mkSession "s" 0 0) (mkStubPeerConnection "new" [0] [])
             eq_refl eq_refl eq_refl eq_refl eq_refl eq_refl eq_refl Hlen Hs Hp).
  reflexivity.
Defined.

Lemma add_ice_candidate_drops_what_does_not_match_witness :
  sessions (one_session (C := stub_ok)) !! "s" = Some (mkSession "s" 0 0) /\
  ~ pattern_prefix (candidate not_a_candidate) /\
  outcome (add_ice_candidate (C := stub_ok) not_a_candidate "s" one_session) = Some (Ok tt).
Proof.
  assert (Hs : sessions (one_session (C := stub_ok)) !! "s" = Some (mkSession "s" 0 0))
    by reflexivity.
  assert (Hno : ~ pattern_prefix (candidate not_a_candidate)).
  { apply (no_match_no_prefix (C := stub_ok)). vm_compute. reflexivity. }
  split; [exact Hs|]. split; [exact Hno|].
  rewrite (add_ice_candidate_drops_what_does_not_match (C := stub_ok) _ _ _ _ Hs Hno).
  reflexivity.
Defined.

Lemma refused_offer_leaves_its_session_registered_witness :
  setRemoteDescription (Collaborators := stub_ok) an_empty_offer
    (addTrack (length (tracks (World_empty (C := stub_ok))))
       (set_configuration get_ice_servers RTCPeerConnection_new))
  = (mkStubPeerConnection "new" [0] [], Raise (LibraryError 4)) /\
  exists w',
    create_offer (C := stub_ok) an_empty_offer "s" World_empty
    = Some (w', Raise (LibraryError 4)) /\
    sessions w' !! "s" = Some (mkSession "s" 0 0).
Proof.
  split; [reflexivity|].
  destruct (refused_offer_leaves_its_session_registered (C := stub_ok)
              an_empty_offer "s" World_empty (mkStubPeerConnection "new" [0] [])
              (LibraryError 4) eq_refl) as (w' & Hrun & Hs & _).
  exists w'. split; [exact Hrun | exact Hs].
Defined.

Lemma offer_then_teardown_restores_registry_witness :
  create_offer (C := stub_ok) an_offer "s" World_empty
  = Some (one_session, Ok (mkOffer "v=0" "answer")) /\
  connectionState (Collaborators := stub_ok) a_failed_connection = "failed" /\
  exists w3 : World (C := stub_ok), sessions w3 = sessions (World_empty (C := stub_ok)).
Proof.
  assert (H : create_offer (C := stub_ok) an_offer "s" World_empty
              = Some (one_session, Ok (mkOffer "v=0" "answer")))
    by (vm_compute; reflexivity).
  split; [exact H|]. split; [reflexivity|].
  destruct (offer_then_teardown_restores_registry (C := stub_ok)
              an_offer "s" World_empty one_session _ a_failed_connection H eq_refl)
    as (w2 & w3 & _ & _ & _ & Hs).
  exists w3. apply Hs. reflexivity.
Defined.

Lemma teardown_removes_whatever_is_registered_witness :
  peer_connections stale_failure !! 0 = Some a_failed_connection /\
  connectionState (Collaborators := stub_ok) a_failed_connection = "failed" /\
  sessions stale_failure !! "s" = Some (mkSession "s" 1 1) /\
  pc (mkSession "s" 1 1) <> 0 /\
  exists w',
    on_connectionstatechange (C := stub_ok) 0 "s" stale_failure = Some (w', Ok tt) /\
    sessions w' !! "s" = None.
Proof.
  assert (Hne : pc (mkSession "s" 1 1) <> 0) by discriminate.
  split; [reflexivity|]. split; [reflexivity|]. split; [reflexivity|]. split; [exact Hne|].
  destruct (teardown_removes_whatever_is_registered (C := stub_ok)
              0 "s" stale_failure a_failed_connection (mkSession "s" 1 1)
              eq_refl eq_refl eq_refl Hne) as (w' & Hrun & Hs & _).
  exists w'. split; [exact Hrun | exact Hs].
Defined.

Lemma second_teardown_raises_KeyError_witness :
  0 <> 1 /\
  peer_connections both_failed !! 0 = Some a_failed_connection /\
  peer_connections both_failed !! 1 = Some another_failed_connection /\
  on_connectionstatechange (C := stub_ok) 0 "s" both_failed
  = Some (world_after both_failed (on_connectionstatechange (C := stub_ok) 0 "s" both_failed),
          Ok tt) /\
  exists w2,
    on_connectionstatechange (C := stub_ok) 1 "s"
      (world_after both_failed (on_connectionstatechange (C := stub_ok) 0 "s" both_failed))
    = Some (w2, Raise (KeyError "s")).
Proof.
  assert (Hne : 0 <> 1) by discriminate.
  assert (H : on_connectionstatechange (C := stub_ok) 0 "s" both_failed
              = Some (world_after both_failed
                        (on_connectionstatechange (C := stub_ok) 0 "s" both_failed), Ok tt))
    by (apply run_eq; vm_compute; reflexivity).
  split; [exact Hne|]. split; [reflexivity|]. split; [reflexivity|]. split; [exact H|].
  destruct (second_teardown_raises_KeyError (C := stub_ok) 0 1 "s" both_failed _
              a_failed_connection another_failed_connection _
              Hne eq_refl eq_refl eq_refl eq_refl H) as (w2 & Hrun & _).
  exists w2. exact Hrun.
Defined.


Lemma registry_gains_an_entry_only_by_an_offer_witness :
  step (World_empty (C := stub_ok)) one_session /\
  sessions (World_empty (C := stub_ok)) !! "s" = None /\
  sessions (one_session (C := stub_ok)) !! "s" = Some (mkSession "s" 0 0) /\
  exists offer r, create_offer (C := stub_ok) offer "s" World_empty = Some (one_session, r).
Proof.
  assert (Hstep : step (World_empty (C := stub_ok)) one_session).
  { apply (step_create_offer an_offer "s" World_empty one_session (Ok (mkOffer "v=0" "answer"))).
    vm_compute. reflexivity. }
  split; [exact Hstep|]. split; [reflexivity|]. split; [reflexivity|].
  destruct (registry_gains_an_entry_only_by_an_offer (C := stub_ok)
              World_empty one_session "s" (mkSession "s" 0 0) Hstep eq_refl eq_refl)
    as (offer & r & Hrun & _).
  exists offer, r. exact Hrun.
Defined.

Lemma first_pull_after_offer_uses_new_objects_witness :
  create_offer (C := stub_ok) an_offer "s" World_empty
  = Some (one_session, Ok (mkOffer "v=0" "answer")) /\
  outcome (recv (C := stub_ok) 10 0 one_session) = Some (Ok first_frame).
Proof.
  assert (H : create_offer (C := stub_ok) an_offer "s" World_empty
              = Some (one_session, Ok (mkOffer "v=0" "answer")))
    by (vm_compute; reflexivity).
  split; [exact H|].
  change 0 with (length (tracks (World_empty (C := stub_ok)))) at 2.
  rewrite (first_pull_after_offer_uses_new_objects (C := stub_ok) _ _ _ _ _ 10 H).
  vm_compute. reflexivity.
Defined.

Lemma exhaustion_is_logged_once_at_the_end_witness :
  let run := recv_loop (C := stub renders_undecodable false) 10
               (loop_start Renderer_new (CodecContext_create Renderer_new)) in
  run = Finished (loop_end run) /\
  exists out, failed_render_free out /\
              ls_output (loop_end run) = out ++ [log_failed_render max_failed_attempts].
Proof.
  intros run.
  assert (H : run = Finished (loop_end run)) by (vm_compute; reflexivity).
  split; [exact H|].
  destruct (exhaustion_is_logged_once_at_the_end (C := stub renders_undecodable false)
              10 Renderer_new (CodecContext_create Renderer_new) (loop_end run) H)
    as (out & Hfree & [(_ & _ & Hout) | (Hlt & _)]).
  - exists out. split; [exact Hfree | exact Hout].
  - exfalso. vm_compute in Hlt. lia.
Defined.

Lemma candidate_after_offer_goes_to_the_new_connection_witness :
  create_offer (C := stub_ok) an_offer "s" one_session
  = Some (duplicate_sessions, Ok (mkOffer "v=0" "answer")) /\
  parse_candidate (C := stub_ok) a_candidate
  = Ok (Some (mkRTCIceCandidate 1 "1" "192.168.1.7" 54321 2122260223 "udp" "host" "0" 0)) /\
  exists p w2,
    peer_connections (duplicate_sessions (C := stub_ok)) !! 1 = Some p /\
    outcome (add_ice_candidate (C := stub_ok) a_candidate "s" duplicate_sessions)
    = Some (Ok tt) /\
    peer_connections w2 !! 0 = peer_connections (one_session (C := stub_ok)) !! 0.
Proof.
  assert (H : create_offer (C := stub_ok) an_offer "s" one_session
              = Some (duplicate_sessions, Ok (mkOffer "v=0" "answer")))
    by (vm_compute; reflexivity).
  assert (Hparse : parse_candidate (C := stub_ok) a_candidate
                   = Ok (Some (mkRTCIceCandidate 1 "1" "192.168.1.7" 54321 2122260223
                                 "udp" "host" "0" 0)))
    by (vm_compute; reflexivity).
  split; [exact H|]. split; [exact Hparse|].
  destruct (candidate_after_offer_goes_to_the_new_connection (C := stub_ok)
              an_offer "s" one_session duplicate_sessions _ a_candidate _ H Hparse)
    as (p & w2 & Hp & Hrun & _ & Hearlier).
  exists p, w2. split; [exact Hp|]. split.
  - rewrite Hrun. reflexivity.
  - apply Hearlier. vm_compute. lia.
Defined.

Lemma reachable_duplicate_sessions : reachable (duplicate_sessions (C := stub_ok)).
Proof.
  eapply reachable_step; [exact reachable_one_session|].
  apply (step_create_offer an_offer "s" one_session duplicate_sessions
           (Ok (mkOffer "v=0" "answer"))).
  vm_compute. reflexivity.
Qed.

(** C9, counterexample. After two offers for ["s"], a reachable world, two
    sessions carry the identifier ["s"]: the one the first offer made, no
    longer in the registry, and the one the second offer made. Both are
    live: each has its own connection, still open, and a pull on either
    track returns a frame. *)
Lemma two_live_sessions_carry_one_identifier :
  reachable (duplicate_sessions (C := stub_ok)) /\
  created (duplicate_sessions (C := stub_ok)) = [mkSession "s" 0 0; mkSession "s" 1 1] /\
  sessions (duplicate_sessions (C := stub_ok)) !! "s" = Some (mkSession "s" 1 1) /\
  option_map (connectionState (Collaborators := stub_ok))
    (peer_connections (duplicate_sessions (C := stub_ok)) !! 0) = Some "new" /\
  option_map (connectionState (Collaborators := stub_ok))
    (peer_connections (duplicate_sessions (C := stub_ok)) !! 1) = Some "new" /\
  outcome (recv (C := stub_ok) 10 0 duplicate_sessions) = Some (Ok first_frame) /\
  outcome (recv (C := stub_ok) 10 1 duplicate_sessions) = Some (Ok first_frame).
Proof.
  split; [exact reachable_duplicate_sessions|].
  repeat split; vm_compute; reflexivity.
Qed.

Lemma sessions_never_share_handles_witness :
  reachable (duplicate_sessions (C := stub_ok)) /\
  (forall sid s,
      sessions (duplicate_sessions (C := stub_ok)) !! sid = Some s ->
      session_id s = sid /\ s ∈ created (duplicate_sessions (C := stub_ok))) /\
  (forall i j s1 s2,
      created (duplicate_sessions (C := stub_ok)) !! i = Some s1 ->
      created (duplicate_sessions (C := stub_ok)) !! j = Some s2 ->
      shares_handle s1 s2 -> i = j).
Proof.
  split; [exact reachable_duplicate_sessions|].
  destruct (sessions_never_share_handles (C := stub_ok) duplicate_sessions
              reachable_duplicate_sessions) as (_ & Hreg & _ & Huniq & _).
  split; [exact Hreg | exact Huniq].
Defined.
